(** * Verification of the chat-history storage layer and the reliability
    helpers of the agentic-web starter kit.

    Shallow embedding of
    - the retry utilities: [withRetry], [isRetryableError] and the
      [CircuitBreaker] class;
    - the browser-storage adapter [LocalStorageChatAdapter];
    - the remote adapter [SupabaseChatAdapter].

    Numbers used as delays, thresholds and times are integer-valued in all
    configurations we consider; they are modelled as [Z] (milliseconds for
    times).  Every read of the clock ([new Date()] or [Date.now()]) is an
    explicit argument of the operation that performs it, one argument per
    read, so that two reads of the clock are two values. *)

From Stdlib Require Import List String Ascii ZArith Bool Lia.
From Stdlib Require Import Sorting.Sorted Sorting.Permutation.
Import ListNotations.
Open Scope string_scope.
Open Scope list_scope.
Open Scope Z_scope.

(* ================================================================== *)
(** ** Thrown values and errors *)

(** A JavaScript [Error] object, reduced to its message. *)
Record JsError := mkJsError { message : string }.

(** Anything a [throw] can raise: an [Error] instance or another value. *)
Inductive Thrown :=
| ThrownError (e : JsError)
| ThrownOther (v : string).

(* ================================================================== *)
(** ** [isRetryableError] *)

(** [String.prototype.toLowerCase] on ASCII text. *)
Definition lower_ascii (c : ascii) : ascii :=
  let n := nat_of_ascii c in
  if (65 <=? n)%nat && (n <=? 90)%nat then ascii_of_nat (n + 32) else c.

Fixpoint toLowerCase (s : string) : string :=
  match s with
  | EmptyString => EmptyString
  | String c s' => String (lower_ascii c) (toLowerCase s')
  end.

(** [String.prototype.includes]. *)
Fixpoint includes (s pat : string) : bool :=
  if String.prefix pat s then true
  else match s with
       | EmptyString => false
       | String _ s' => includes s' pat
       end.

Definition isRetryableError (error : Thrown) : bool :=
  match error with
  | ThrownError e =>
      let message := toLowerCase (message e) in
      (includes message "network" || includes message "fetch" ||
       includes message "econnrefused" || includes message "enotfound")
      || (includes message "timeout" || includes message "timed out")
      || (includes message "rate limit" || includes message "429" ||
          includes message "quota")
      || (includes message "500" || includes message "502" ||
          includes message "503" || includes message "504")
  | ThrownOther _ => false
  end.

(* ================================================================== *)
(** ** [withRetry] *)

(** [Required<RetryOptions>].  The numeric fields are JavaScript numbers;
    the model takes them to be integers.  A fractional [maxRetries] is
    outside it: the loop [for (attempt = 0; attempt < maxRetries; ...)]
    makes [ceil(maxRetries)] attempts, three for [2.5]. *)
Record RetryOptions := mkRetryOptions {
  maxRetries : Z;
  baseDelay : Z;
  maxDelay : Z;
  backoffMultiplier : Z;
  shouldRetry : Thrown -> bool
}.

Definition defaultOptions : RetryOptions :=
  {| maxRetries := 3; baseDelay := 1000; maxDelay := 10000;
     backoffMultiplier := 2; shouldRetry := isRetryableError |}.

(** [RetryOptions] as passed by a caller: every field may be left out. *)
Record PartialRetryOptions := mkPartialRetryOptions {
  p_maxRetries : option Z;
  p_baseDelay : option Z;
  p_maxDelay : option Z;
  p_backoffMultiplier : option Z;
  p_shouldRetry : option (Thrown -> bool)
}.

Definition override {A} (d : A) (o : option A) : A :=
  match o with Some v => v | None => d end.

(** [{ ...defaultOptions, ...options }]. *)
Definition merge_options (options : PartialRetryOptions) : RetryOptions :=
  {| maxRetries := override (maxRetries defaultOptions) (p_maxRetries options);
     baseDelay := override (baseDelay defaultOptions) (p_baseDelay options);
     maxDelay := override (maxDelay defaultOptions) (p_maxDelay options);
     backoffMultiplier :=
       override (backoffMultiplier defaultOptions) (p_backoffMultiplier options);
     shouldRetry := override (shouldRetry defaultOptions) (p_shouldRetry options) |}.

(** The wrapped operation [fn], seen through its successive invocations:
    the [i]-th call (from 0) resolves with [Ok v] or rejects with [Throw t]. *)
Inductive Outcome :=
| Ok (v : Z)
| Throw (t : Thrown).

(** What [withRetry] does observably: invoke [fn], or [sleep]. *)
Inductive RetryEvent :=
| Invoke (attempt : nat)
| Sleep (ms : Z).

(** How the promise returned by [withRetry] settles. *)
Inductive RetryResult :=
| Returned (v : Z)
| Rethrown (t : Thrown)
(** [new LLMError(`Failed after ${maxRetries} retries`, { originalError })] *)
| LLMError (retries : Z) (originalError : option JsError).

(** [error instanceof Error ? error : new Error('Unknown error')]. *)
Definition as_error (t : Thrown) : JsError :=
  match t with
  | ThrownError e => e
  | ThrownOther _ => mkJsError "Unknown error"
  end.

(** [Math.min(baseDelay * Math.pow(backoffMultiplier, attempt), maxDelay)]. *)
Definition backoff_delay (opts : RetryOptions) (attempt : nat) : Z :=
  Z.min (baseDelay opts * backoffMultiplier opts ^ Z.of_nat attempt) (maxDelay opts).

(** The [for (let attempt = 0; attempt < opts.maxRetries; attempt++)] loop,
    from iteration [attempt] on, with [fuel] iterations left. *)
Fixpoint retry_loop (opts : RetryOptions) (fn : nat -> Outcome)
    (fuel attempt : nat) (lastError : option JsError)
    : list RetryEvent * RetryResult :=
  match fuel with
  | O => ([], LLMError (maxRetries opts) lastError)
  | S fuel' =>
      match fn attempt with
      | Ok v => ([Invoke attempt], Returned v)
      | Throw error =>
          let lastError' := Some (as_error error) in
          if negb (shouldRetry opts error) then ([Invoke attempt], Rethrown error)
          else
            let wait :=
              if Z.of_nat attempt <? maxRetries opts - 1
              then [Sleep (backoff_delay opts attempt)] else [] in
            let '(evs, r) := retry_loop opts fn fuel' (S attempt) lastError' in
            (Invoke attempt :: wait ++ evs, r)
      end
  end.

Definition withRetry_opts (opts : RetryOptions) (fn : nat -> Outcome)
    : list RetryEvent * RetryResult :=
  retry_loop opts fn (Z.to_nat (maxRetries opts)) 0 None.

Definition withRetry (fn : nat -> Outcome) (options : PartialRetryOptions)
    : list RetryEvent * RetryResult :=
  withRetry_opts (merge_options options) fn.

(** Number of invocations of [fn] in a trace. *)
Fixpoint invocations (evs : list RetryEvent) : nat :=
  match evs with
  | [] => O
  | Invoke _ :: evs' => S (invocations evs')
  | Sleep _ :: evs' => invocations evs'
  end.

(** The waits of a trace, in order. *)
Fixpoint sleeps (evs : list RetryEvent) : list Z :=
  match evs with
  | [] => []
  | Invoke _ :: evs' => sleeps evs'
  | Sleep d :: evs' => d :: sleeps evs'
  end.

(* ================================================================== *)
(** ** [CircuitBreaker] *)

Inductive BreakerState := Closed | Open | HalfOpen.

(** The private fields of a [CircuitBreaker] and its constructor arguments. *)
Record CircuitBreaker := mkBreaker {
  failures : Z;
  lastFailureTime : Z;
  state : BreakerState;
  threshold : Z;
  timeout : Z
}.

(** [new CircuitBreaker(threshold, timeout)]. *)
Definition new_CircuitBreaker (threshold timeout : Z) : CircuitBreaker :=
  mkBreaker 0 0 Closed threshold timeout.

Definition set_state (b : CircuitBreaker) (s : BreakerState) : CircuitBreaker :=
  mkBreaker (failures b) (lastFailureTime b) s (threshold b) (timeout b).

(** The part of [execute] before [fn] is called, with [now = Date.now()]:
    [None] is the synchronous [throw new Error('Circuit breaker is open...')],
    reached without calling [fn]. *)
Definition execute_enter (b : CircuitBreaker) (now : Z) : option CircuitBreaker :=
  match state b with
  | Open =>
      if now - lastFailureTime b >? timeout b then Some (set_state b HalfOpen)
      else None
  | _ => Some b
  end.

Definition onSuccess (b : CircuitBreaker) : CircuitBreaker :=
  mkBreaker 0 (lastFailureTime b) Closed (threshold b) (timeout b).

(** [onFailure], with [now = Date.now()] read after [fn] rejected. *)
Definition onFailure (b : CircuitBreaker) (now : Z) : CircuitBreaker :=
  let f := failures b + 1 in
  mkBreaker f now (if f >=? threshold b then Open else state b)
    (threshold b) (timeout b).

Definition reset (b : CircuitBreaker) : CircuitBreaker :=
  mkBreaker 0 0 Closed (threshold b) (timeout b).

(** The part of [execute] after [fn] settled. *)
Definition execute_settle (b : CircuitBreaker) (res : Outcome) (now : Z)
    : CircuitBreaker :=
  match res with
  | Ok _ => onSuccess b
  | Throw _ => onFailure b now
  end.

(** How a call to [execute] settles. *)
Inductive CallResult :=
| CircuitOpenRejected
| Invoked (res : Outcome).

(** A whole call [execute(fn)], awaited before the next call: [t_enter] is
    the clock read on entry, [res] what [fn] does if it is called, and
    [t_settle] the clock read by [onFailure]. *)
Definition execute (b : CircuitBreaker) (t_enter : Z) (res : Outcome)
    (t_settle : Z) : CircuitBreaker * CallResult :=
  match execute_enter b t_enter with
  | None => (b, CircuitOpenRejected)
  | Some b1 => (execute_settle b1 res t_settle, Invoked res)
  end.

(** The breakers reachable by a sequence of awaited calls. *)
Inductive reachable : CircuitBreaker -> Prop :=
| reach_new : forall th to, reachable (new_CircuitBreaker th to)
| reach_execute : forall b t0 res t1,
    reachable b -> reachable (fst (execute b t0 res t1))
| reach_reset : forall b, reachable b -> reachable (reset b).

(** A sequence of awaited calls [(t_enter, outcome of fn, t_settle)]. *)
Fixpoint run_calls (b : CircuitBreaker) (calls : list (Z * Outcome * Z))
    : CircuitBreaker :=
  match calls with
  | [] => b
  | (t0, res, t1) :: calls' => run_calls (fst (execute b t0 res t1)) calls'
  end.

(** The breaker [new CircuitBreaker()] after five failed calls. *)
Definition breaker_after_five_failures : CircuitBreaker :=
  let fail := Throw (ThrownError (mkJsError "503 Service Unavailable")) in
  run_calls (new_CircuitBreaker 5 60000)
    [(0, fail, 10); (20, fail, 30); (40, fail, 50); (60, fail, 70); (80, fail, 90)].

(** The trace of a run of [withRetry] that invokes [fn] [k] times from
    attempt [a]: one wait between two consecutive attempts, the wait after
    attempt [i] being [backoff_delay opts i], and none after the last. *)
Fixpoint spaced_trace (opts : RetryOptions) (a k : nat) : list RetryEvent :=
  match k with
  | O => []
  | S O => [Invoke a]
  | S k' => Invoke a :: Sleep (backoff_delay opts a) :: spaced_trace opts (S a) k'
  end.

(* ================================================================== *)
(** ** Storage data model ([interface.ts]) *)

Inductive Role := User | Assistant | System.

Record ToolCall := mkToolCall {
  tool : string;
  input : string;
  output : string
}.

(** [Message['metadata']]: every field is optional. *)
Record MessageMetadata := mkMessageMetadata {
  tokens : option Z;
  model : option string;
  toolCalls : option (list ToolCall);
  error : option string
}.

Definition empty_message_metadata : MessageMetadata :=
  mkMessageMetadata None None None None.

(** [Conversation['metadata']]. *)
Record ConversationMetadata := mkConversationMetadata {
  totalTokens : option Z;
  messageCount : option Z;
  userId : option string
}.

Module Message.
Record t := mk {
  id : string;
  role : Role;
  content : string;
  timestamp : Z;
  metadata : option MessageMetadata
}.
End Message.

Module Conversation.
Record t := mk {
  id : string;
  title : option string;
  messages : list Message.t;
  createdAt : Z;
  updatedAt : Z;
  metadata : option ConversationMetadata
}.
End Conversation.

(** [Partial<Message>]: [Some v] for a supplied field, [None] for a key
    the object does not have.  A key present with the value [undefined]
    (which [Object.assign] would copy) is outside this model. *)
Record MessageUpdate := mkMessageUpdate {
  upd_id : option string;
  upd_role : option Role;
  upd_content : option string;
  upd_timestamp : option Z;
  upd_metadata : option MessageMetadata
}.

(** [Partial<Conversation>]. *)
Record ConversationUpdate := mkConversationUpdate {
  updc_id : option string;
  updc_title : option string;
  updc_messages : option (list Message.t);
  updc_createdAt : option Z;
  updc_updatedAt : option Z;
  updc_metadata : option ConversationMetadata
}.

(** [Object.assign(message, updates)]. *)
Definition assign_message (m : Message.t) (u : MessageUpdate) : Message.t :=
  Message.mk (override (Message.id m) (upd_id u))
    (override (Message.role m) (upd_role u))
    (override (Message.content m) (upd_content u))
    (override (Message.timestamp m) (upd_timestamp u))
    (match upd_metadata u with
     | Some md => Some md
     | None => Message.metadata m
     end).

(** [Object.assign(conversation, updates)]. *)
Definition assign_conversation (c : Conversation.t) (u : ConversationUpdate)
    : Conversation.t :=
  Conversation.mk (override (Conversation.id c) (updc_id u))
    (match updc_title u with Some s => Some s | None => Conversation.title c end)
    (override (Conversation.messages c) (updc_messages u))
    (override (Conversation.createdAt c) (updc_createdAt u))
    (override (Conversation.updatedAt c) (updc_updatedAt u))
    (match updc_metadata u with
     | Some md => Some md
     | None => Conversation.metadata c
     end).

Definition set_updatedAt (c : Conversation.t) (now : Z) : Conversation.t :=
  Conversation.mk (Conversation.id c) (Conversation.title c)
    (Conversation.messages c) (Conversation.createdAt c) now
    (Conversation.metadata c).

Definition set_messages (c : Conversation.t) (ms : list Message.t) : Conversation.t :=
  Conversation.mk (Conversation.id c) (Conversation.title c) ms
    (Conversation.createdAt c) (Conversation.updatedAt c)
    (Conversation.metadata c).

Definition set_conv_metadata (c : Conversation.t) (md : ConversationMetadata)
    : Conversation.t :=
  Conversation.mk (Conversation.id c) (Conversation.title c)
    (Conversation.messages c) (Conversation.createdAt c)
    (Conversation.updatedAt c) (Some md).

(** [title || 'New Conversation']. *)
Definition title_or_default (title : option string) : string :=
  match title with
  | None | Some EmptyString => "New Conversation"
  | Some s => s
  end.

(** [x?.tokens || 0] and [x?.totalTokens || 0]. *)
Definition tokens_or_0 (md : option MessageMetadata) : Z :=
  match md with Some m => override 0 (tokens m) | None => 0 end.

Definition totalTokens_or_0 (md : option ConversationMetadata) : Z :=
  match md with Some m => override 0 (totalTokens m) | None => 0 end.

(** The failures an adapter call can reject with. *)
Inductive StorageError :=
| ConversationNotFound (id : string)   (* `Conversation ${id} not found` *)
| MessageNotFound (id : string)        (* `Message ${id} not found` *)
| LocalWriteFailed                     (* 'Failed to save to localStorage' *)
| BackendFailed (operation : string)   (* `Failed to ${operation}: ...` *)
| MissingUserId                        (* 'Cannot clear all without userId' *)
| TypeErrorThrown.                     (* a [TypeError] of the engine, such as
                                          reading a property of [undefined] *)

Inductive Result (A : Type) :=
| Done (a : A)
| Failed (e : StorageError).
Arguments Done {A} a.
Arguments Failed {A} e.

(** Stable sort ([Array.prototype.sort] is stable), ascending by [key];
    insertion sort, each element going after the ones with an equal key. *)
Fixpoint insert_by_key {A} (key : A -> Z) (x : A) (l : list A) : list A :=
  match l with
  | [] => [x]
  | y :: l' => if key x <? key y then x :: l else y :: insert_by_key key x l'
  end.

Definition sort_by_key {A} (key : A -> Z) (l : list A) : list A :=
  fold_left (fun acc x => insert_by_key key x acc) l [].


(** The properties every object literal inherits from [Object.prototype]. *)
Definition object_prototype_members : list string :=
  ["constructor"; "hasOwnProperty"; "isPrototypeOf"; "propertyIsEnumerable";
   "toLocaleString"; "toString"; "valueOf"; "__defineGetter__";
   "__defineSetter__"; "__lookupGetter__"; "__lookupSetter__"; "__proto__"].

(* ================================================================== *)
(** ** [LocalStorageChatAdapter] *)

(** The JavaScript object [data.conversations], as its own properties in
    property order.  Its keys are the ids made by [uuidv4()], never array
    indices, so property order is insertion order: assigning an existing
    key keeps its place, assigning a new key appends it.

    The object is a plain object, so [data.conversations[k]] for a key [k]
    that is not one of its own properties finds the member of
    [Object.prototype] of that name, if there is one.  The realm is taken
    to be a standard one: its [Object.prototype] has the members listed in
    [object_prototype_members] and no others.  [updateConversation] on such
    a name assigns the updates onto that member (onto [Object.prototype]
    itself for ['__proto__']); that change of the realm is not part of
    this model. *)
Record StorageData := mkStorageData {
  conversations : list (string * Conversation.t)
}.

Definition empty_data : StorageData := mkStorageData [].

(** [obj[k]] among the own properties. *)
Fixpoint obj_get (l : list (string * Conversation.t)) (k : string)
    : option Conversation.t :=
  match l with
  | [] => None
  | (k', v) :: l' => if String.eqb k k' then Some v else obj_get l' k
  end.

(** [obj[k] = v], for a key that is an own property or a fresh id: the
    adapter assigns only those (a new key is a [uuidv4()] value, never
    ['__proto__'], whose assignment would set the prototype instead). *)
Fixpoint obj_set (l : list (string * Conversation.t)) (k : string)
    (v : Conversation.t) : list (string * Conversation.t) :=
  match l with
  | [] => [(k, v)]
  | (k', v') :: l' => if String.eqb k k' then (k', v) :: l' else (k', v') :: obj_set l' k v
  end.

(** [delete obj[k]]. *)
Definition obj_delete (l : list (string * Conversation.t)) (k : string)
    : list (string * Conversation.t) :=
  filter (fun '(k', _) => negb (String.eqb k k')) l.

(** What [obj[k]] reads on a plain object: its own property, or, when it
    has none, the member of [Object.prototype] of that name (a built-in
    function, or [Object.prototype] itself for ['__proto__']); [None] is
    [undefined]. *)
Inductive ObjValue :=
| OwnProperty (c : Conversation.t)
| InheritedMember (name : string).

Definition obj_lookup (l : list (string * Conversation.t)) (k : string)
    : option ObjValue :=
  match obj_get l k with
  | Some c => Some (OwnProperty c)
  | None =>
      if existsb (String.eqb k) object_prototype_members
      then Some (InheritedMember k) else None
  end.

(** [Object.values(obj)]. *)
Definition obj_values (l : list (string * Conversation.t)) : list Conversation.t :=
  map snd l.

(** The value stored under the adapter's key: a document [JSON.parse] reads
    (dates revived by [getAll]), or text it cannot use. *)
Inductive StoredItem :=
| Json (d : StorageData)
| Unparseable.

(** What the adapter sees of its environment: whether [window] is defined,
    whether [localStorage.setItem] accepts a write (it throws when the quota
    is exceeded), and the item under ['agentic-web-chat-history']. *)
Record LocalEnv := mkLocalEnv {
  window_defined : bool;
  setItem_succeeds : bool;
  item : option StoredItem
}.

Definition getAll (env : LocalEnv) : StorageData :=
  if negb (window_defined env) then empty_data
  else match item env with
       | None | Some Unparseable => empty_data
       | Some (Json d) => d
       end.

Definition saveAll (env : LocalEnv) (data : StorageData) : Result LocalEnv :=
  if negb (window_defined env) then Done env
  else if setItem_succeeds env
       then Done (mkLocalEnv (window_defined env) (setItem_succeeds env) (Some (Json data)))
       else Failed LocalWriteFailed.

Definition with_result {A} (r : Result LocalEnv) (a : A) : Result (LocalEnv * A) :=
  match r with
  | Done env' => Done (env', a)
  | Failed e => Failed e
  end.

(** [saveMessage]: push, bump [updatedAt], recompute the two counters.  On
    an inherited member, [member.messages] is [undefined] and [.push]
    throws. *)
Definition local_saveMessage (env : LocalEnv) (conversationId : string)
    (message : Message.t) (now : Z) : Result (LocalEnv * unit) :=
  let data := getAll env in
  match obj_lookup (conversations data) conversationId with
  | None => Failed (ConversationNotFound conversationId)
  | Some (InheritedMember _) => Failed TypeErrorThrown
  | Some (OwnProperty conv) =>
      let msgs := Conversation.messages conv ++ [message] in
      let md := Conversation.metadata conv in
      let conv' :=
        set_conv_metadata (set_updatedAt (set_messages conv msgs) now)
          (mkConversationMetadata
             (Some (totalTokens_or_0 md + tokens_or_0 (Message.metadata message)))
             (Some (Z.of_nat (List.length msgs)))
             (match md with Some m => userId m | None => None end)) in
      with_result
        (saveAll env (mkStorageData (obj_set (conversations data) conversationId conv')))
        tt
  end.

(** [data.conversations[id]?.messages || []]: an inherited member has no
    [messages]. *)
Definition local_getMessages (env : LocalEnv) (conversationId : string)
    : list Message.t :=
  match obj_lookup (conversations (getAll env)) conversationId with
  | Some (OwnProperty conv) => Conversation.messages conv
  | Some (InheritedMember _) | None => []
  end.

(** [messages.findIndex(m => m.id === messageId)] and [splice(index, 1)]. *)
Fixpoint remove_message (ms : list Message.t) (messageId : string)
    : option (list Message.t) :=
  match ms with
  | [] => None
  | m :: ms' =>
      if String.eqb (Message.id m) messageId then Some ms'
      else option_map (cons m) (remove_message ms' messageId)
  end.

(** [messages.find(m => m.id === messageId)] and [Object.assign] on it. *)
Fixpoint assign_first_message (ms : list Message.t) (messageId : string)
    (u : MessageUpdate) : option (list Message.t) :=
  match ms with
  | [] => None
  | m :: ms' =>
      if String.eqb (Message.id m) messageId then Some (assign_message m u :: ms')
      else option_map (cons m) (assign_first_message ms' messageId u)
  end.

(** The [for (const conv of Object.values(data.conversations))] loop of
    [deleteMessage] and [updateMessage]: the first conversation for which
    [edit] finds the message gets the edited list and [updatedAt = now];
    the object is the one held by [data], so it is edited in place. *)
Fixpoint edit_first_conv (l : list (string * Conversation.t))
    (edit : list Message.t -> option (list Message.t)) (now : Z)
    : option (list (string * Conversation.t)) :=
  match l with
  | [] => None
  | (k, conv) :: l' =>
      match edit (Conversation.messages conv) with
      | Some ms => Some ((k, set_updatedAt (set_messages conv ms) now) :: l')
      | None => option_map (cons (k, conv)) (edit_first_conv l' edit now)
      end
  end.

Definition local_deleteMessage (env : LocalEnv) (messageId : string) (now : Z)
    : Result (LocalEnv * unit) :=
  let data := getAll env in
  match edit_first_conv (conversations data)
          (fun ms => remove_message ms messageId) now with
  | Some l => with_result (saveAll env (mkStorageData l)) tt
  | None => Failed (MessageNotFound messageId)
  end.

Definition local_updateMessage (env : LocalEnv) (messageId : string)
    (updates : MessageUpdate) (now : Z) : Result (LocalEnv * unit) :=
  let data := getAll env in
  match edit_first_conv (conversations data)
          (fun ms => assign_first_message ms messageId updates) now with
  | Some l => with_result (saveAll env (mkStorageData l)) tt
  | None => Failed (MessageNotFound messageId)
  end.

(** [listConversations]: [sort((a, b) => b.updatedAt - a.updatedAt)], i.e.
    ascending by [- updatedAt]. *)
Definition local_listConversations (env : LocalEnv) : list Conversation.t :=
  sort_by_key (fun c => - Conversation.updatedAt c)
    (obj_values (conversations (getAll env))).

(** [data.conversations[id] || null]: [None] is [null]. *)
Definition local_getConversation (env : LocalEnv) (conversationId : string)
    : option ObjValue :=
  obj_lookup (conversations (getAll env)) conversationId.

(** [createConversation(title)]: [uuid] is the value of [uuidv4()] (a
    fresh id, so the assignment adds an own property), and
    [createdAt] and [updatedAt] are two separate reads [new Date()]. *)
Definition local_createConversation (env : LocalEnv) (title : option string)
    (uuid : string) (t_created t_updated : Z) : Result (LocalEnv * Conversation.t) :=
  let data := getAll env in
  let conversation :=
    Conversation.mk uuid (Some (title_or_default title)) [] t_created t_updated
      (Some (mkConversationMetadata (Some 0) (Some 0) None)) in
  with_result
    (saveAll env (mkStorageData (obj_set (conversations data) uuid conversation)))
    conversation.

(** [updateConversation]: on an inherited member, [Object.assign] and the
    [updatedAt] assignment write onto that member, not into [data], and
    [saveAll(data)] writes the document as it was read. *)
Definition local_updateConversation (env : LocalEnv) (conversationId : string)
    (updates : ConversationUpdate) (now : Z) : Result (LocalEnv * unit) :=
  let data := getAll env in
  match obj_lookup (conversations data) conversationId with
  | None => Failed (ConversationNotFound conversationId)
  | Some (InheritedMember _) => with_result (saveAll env data) tt
  | Some (OwnProperty conv) =>
      let conv' := set_updatedAt (assign_conversation conv updates) now in
      with_result
        (saveAll env (mkStorageData (obj_set (conversations data) conversationId conv')))
        tt
  end.

(** [deleteConversation]: [delete] of a key that is not an own property
    does nothing. *)
Definition local_deleteConversation (env : LocalEnv) (conversationId : string)
    : Result (LocalEnv * unit) :=
  let data := getAll env in
  match obj_lookup (conversations data) conversationId with
  | None => Failed (ConversationNotFound conversationId)
  | Some (InheritedMember _) => with_result (saveAll env data) tt
  | Some (OwnProperty _) =>
      with_result
        (saveAll env (mkStorageData (obj_delete (conversations data) conversationId)))
        tt
  end.



(* ================================================================== *)
(** ** [SupabaseChatAdapter] *)

(** The two tables of the schema the adapter is written against
    ([conversations] and [messages], [messages.conversation_id] a foreign
    key to [conversations.id] with [ON DELETE CASCADE], [id] the primary
    key of each).  Times are the [TIMESTAMPTZ] columns, read back by
    [new Date(...)] to the millisecond they were written with. *)
Module ConversationRow.
Record t := mk {
  id : string;
  title : option string;
  user_id : option string;
  created_at : Z;
  updated_at : Z;
  metadata : ConversationMetadata
}.
End ConversationRow.

Module MessageRow.
Record t := mk {
  id : string;
  conversation_id : string;
  role : Role;
  content : string;
  created_at : Z;
  metadata : MessageMetadata
}.
End MessageRow.

Record Database := mkDatabase {
  conversation_rows : list ConversationRow.t;
  message_rows : list MessageRow.t
}.

(** The backend's answer to a write statement of the adapter, besides what
    the rows themselves decide (a duplicate key, a missing parent row):
    - [Applied]: the statement reaches the rows it selects;
    - [Hidden]: row-level security leaves it no row: an [UPDATE] or a
      [DELETE] that no policy grants (the README's schema has policies for
      [SELECT] and [INSERT] only) changes nothing and reports no error,
      while an [INSERT] its policy refuses is answered with an error;
    - [Errored]: the backend answers with an error (the network, or an id
      the [UUID] columns do not accept, such as ['z']).
    The reads ([getMessages], [getConversation], [listConversations]) are
    modelled for the answers the backend gives over the rows it holds. *)
Inductive Reply := Applied | Hidden | Errored.

(** The [{ error }] of a write: [if (error) throw new Error(`Failed to
    ${operation}: ...`)], else the database the statement leaves. *)
Definition run_write (operation : string) (reply : Reply) (db db' : Database)
    : Result Database :=
  match reply with
  | Applied => Done db'
  | Hidden => Done db
  | Errored => Failed (BackendFailed operation)
  end.

(** [if (this.userId)]: the bound identity, when it is a non-empty string. *)
Definition bound_user (userId : option string) : option string :=
  match userId with
  | Some (String c s) => Some (String c s)
  | _ => None
  end.

Definition conv_row_exists (db : Database) (id : string) : bool :=
  existsb (fun r => String.eqb (ConversationRow.id r) id) (conversation_rows db).

Definition msg_row_exists (db : Database) (id : string) : bool :=
  existsb (fun r => String.eqb (MessageRow.id r) id) (message_rows db).

(** [insert] into [messages]: refused on a duplicate key or a
    [conversation_id] with no conversation row. *)
Definition insert_message_row (db : Database) (r : MessageRow.t) : option Database :=
  if msg_row_exists db (MessageRow.id r) then None
  else if negb (conv_row_exists db (MessageRow.conversation_id r)) then None
  else Some (mkDatabase (conversation_rows db) (message_rows db ++ [r])).

(** [insert] into [conversations]: refused on a duplicate key. *)
Definition insert_conversation_row (db : Database) (r : ConversationRow.t)
    : option Database :=
  if conv_row_exists db (ConversationRow.id r) then None
  else Some (mkDatabase (conversation_rows db ++ [r]) (message_rows db)).

(** [update(...).eq('id', id)] on [conversations]. *)
Definition update_conversation_rows (db : Database) (id : string)
    (f : ConversationRow.t -> ConversationRow.t) : Database :=
  mkDatabase
    (map (fun r => if String.eqb (ConversationRow.id r) id then f r else r)
       (conversation_rows db))
    (message_rows db).

Definition set_updated_at (now : Z) (r : ConversationRow.t) : ConversationRow.t :=
  ConversationRow.mk (ConversationRow.id r) (ConversationRow.title r)
    (ConversationRow.user_id r) (ConversationRow.created_at r) now
    (ConversationRow.metadata r).

(** [saveMessage]: the insert, whose error is thrown, then the update of
    [updated_at], whose answer is not looked at: [insert_reply] and
    [bump_reply] are the backend's answers to the two statements. *)
Definition sb_saveMessage (db : Database) (conversationId : string)
    (message : Message.t) (now : Z) (insert_reply bump_reply : Reply)
    : Result Database :=
  let row := MessageRow.mk (Message.id message) conversationId
               (Message.role message) (Message.content message)
               (Message.timestamp message)
               (override empty_message_metadata (Message.metadata message)) in
  match insert_reply with
  | Applied =>
      match insert_message_row db row with
      | None => Failed (BackendFailed "save message")
      | Some db1 =>
          match bump_reply with
          | Applied => Done (update_conversation_rows db1 conversationId (set_updated_at now))
          | Hidden | Errored => Done db1
          end
      end
  | Hidden | Errored => Failed (BackendFailed "save message")
  end.

Definition mapToMessage (row : MessageRow.t) : Message.t :=
  Message.mk (MessageRow.id row) (MessageRow.role row) (MessageRow.content row)
    (MessageRow.created_at row) (Some (MessageRow.metadata row)).

(** [select().eq('conversation_id', id).order('created_at', {ascending: true})].
    Postgres leaves the order of rows with the same [created_at]
    unspecified; the model keeps them in table order, and the properties
    below do not depend on that choice. *)
Definition sb_getMessages (db : Database) (conversationId : string)
    : list Message.t :=
  map mapToMessage
    (sort_by_key MessageRow.created_at
       (filter (fun r => String.eqb (MessageRow.conversation_id r) conversationId)
          (message_rows db))).

(** [updateMessage]: only [content] and [metadata] are written. *)
Definition sb_updateMessage (db : Database) (messageId : string)
    (updates : MessageUpdate) (reply : Reply) : Result Database :=
  run_write "update message" reply db (mkDatabase (conversation_rows db)
    (map (fun r =>
            if String.eqb (MessageRow.id r) messageId
            then MessageRow.mk (MessageRow.id r) (MessageRow.conversation_id r)
                   (MessageRow.role r)
                   (override (MessageRow.content r) (upd_content updates))
                   (MessageRow.created_at r)
                   (override (MessageRow.metadata r) (upd_metadata updates))
            else r)
       (message_rows db))).

(** [mapToConversation] of a row with the message rows the join brings. *)
Definition mapToConversation (db : Database) (row : ConversationRow.t)
    : Conversation.t :=
  Conversation.mk (ConversationRow.id row) (ConversationRow.title row)
    (sort_by_key Message.timestamp
       (map mapToMessage
          (filter (fun r => String.eqb (MessageRow.conversation_id r)
                                       (ConversationRow.id row))
             (message_rows db))))
    (ConversationRow.created_at row) (ConversationRow.updated_at row)
    (Some (ConversationRow.metadata row)).

Definition owned_by (u : string) (r : ConversationRow.t) : bool :=
  match ConversationRow.user_id r with
  | Some u' => String.eqb u' u
  | None => false
  end.

(** [eq('user_id', userId)] when an identity is bound, every row otherwise. *)
Definition visible_rows (userId : option string) (db : Database)
    : list ConversationRow.t :=
  match bound_user userId with
  | Some u => filter (owned_by u) (conversation_rows db)
  | None => conversation_rows db
  end.

(** [listConversations]: the visible rows come back ordered by
    [updated_at] descending, and [(data || []).map(this.mapToConversation)]
    passes the method without its receiver: inside it [this] is
    [undefined] (class code is strict), so [this.mapToMessage] throws a
    [TypeError] at the first row. *)
Definition sb_listConversations (userId : option string) (db : Database)
    : Result (list Conversation.t) :=
  match visible_rows userId db with
  | [] => Done []
  | _ :: _ => Failed TypeErrorThrown
  end.

(** [getConversation]: [.single()] on the primary key; no row is
    [PGRST116], answered with [null]. *)
Definition sb_getConversation (db : Database) (conversationId : string)
    : option Conversation.t :=
  match find (fun r => String.eqb (ConversationRow.id r) conversationId)
          (conversation_rows db) with
  | Some row => Some (mapToConversation db row)
  | None => None
  end.

(** [createConversation(title)], [uuid = uuidv4()], [now] one read of the
    clock used for both timestamps; [reply] is the backend's answer to the
    insert. *)
Definition sb_createConversation (userId : option string) (db : Database)
    (title : option string) (uuid : string) (now : Z) (reply : Reply)
    : Result (Database * Conversation.t) :=
  let row := ConversationRow.mk uuid (Some (title_or_default title)) userId now now
               (mkConversationMetadata (Some 0) (Some 0) None) in
  match reply with
  | Applied =>
      match insert_conversation_row db row with
      | None => Failed (BackendFailed "create conversation")
      | Some db' =>
          Done (db', Conversation.mk (ConversationRow.id row) (ConversationRow.title row) []
                       (ConversationRow.created_at row) (ConversationRow.updated_at row)
                       (Some (ConversationRow.metadata row)))
      end
  | Hidden | Errored => Failed (BackendFailed "create conversation")
  end.

(** [updateConversation]: [updated_at = now], and [title], [metadata] when
    supplied. *)
Definition sb_update_row (updates : ConversationUpdate) (now : Z)
    (r : ConversationRow.t) : ConversationRow.t :=
  ConversationRow.mk (ConversationRow.id r)
    (match updc_title updates with Some s => Some s | None => ConversationRow.title r end)
    (ConversationRow.user_id r) (ConversationRow.created_at r) now
    (override (ConversationRow.metadata r) (updc_metadata updates)).

Definition sb_updateConversation (db : Database) (conversationId : string)
    (updates : ConversationUpdate) (now : Z) (reply : Reply) : Result Database :=
  run_write "update conversation" reply db
    (update_conversation_rows db conversationId (sb_update_row updates now)).

(** [clearAll]: [delete().eq('user_id', userId)], cascading to messages. *)
Definition sb_clearAll (userId : option string) (db : Database) (reply : Reply)
    : Result Database :=
  match bound_user userId with
  | None => Failed MissingUserId
  | Some u =>
      let kept := filter (fun r => negb (owned_by u r)) (conversation_rows db) in
      run_write "clear all" reply db (mkDatabase kept
        (filter (fun m => existsb (fun r => String.eqb (ConversationRow.id r)
                                                     (MessageRow.conversation_id m)) kept)
           (message_rows db)))
  end.

(** The foreign key of [messages.conversation_id]: every message row
    belongs to a conversation row. *)
Definition fk_ok (db : Database) : Prop :=
  forall m, In m (message_rows db) ->
    conv_row_exists db (MessageRow.conversation_id m) = true.

(** The zeroed counters a new conversation starts with. *)
Definition zero_metadata : ConversationMetadata :=
  mkConversationMetadata (Some 0) (Some 0) None.

(** [Σ message.metadata?.tokens || 0] over a message list. *)
Fixpoint sum_tokens (ms : list Message.t) : Z :=
  match ms with
  | [] => 0
  | m :: ms' => tokens_or_0 (Message.metadata m) + sum_tokens ms'
  end.

(** The counters of a conversation, where present, agree with its messages. *)
Definition cache_consistent (c : Conversation.t) : Prop :=
  match Conversation.metadata c with
  | None => True
  | Some md =>
      (forall t, totalTokens md = Some t -> t = sum_tokens (Conversation.messages c)) /\
      (forall n, messageCount md = Some n ->
                 n = Z.of_nat (List.length (Conversation.messages c)))
  end.

Definition bind_result {A B} (r : Result A) (f : A -> Result B) : Result B :=
  match r with
  | Done a => f a
  | Failed e => Failed e
  end.

(** Ids as [uuidv4()] makes them, which the [UUID] columns of the remote
    schema accept. *)
Definition trip_id : string := "9b2f6c1e-3d4a-4f8b-a1c2-7e5d9f0b3a64".
Definition other_trip_id : string := "3e7a0c5d-9b1f-4e2a-8d6c-5f4b2a1e0c9d".
Definition user_message_id : string := "4a1d7e2b-8c5f-4b3a-9e6d-0f2c5a8b1d7e".
Definition assistant_message_id : string := "6e3b9d2a-1f4c-4d8e-b7a5-3c0f6e9a2d1b".
Definition unknown_message_id : string := "0f8c2a6e-5d1b-4c9a-a3e7-8b4d1f6c2e05".
Definition alice_id : string := "2c8e4f1a-6b3d-4a7e-9f5c-1d0b8e2a4c6f".

Definition kyoto_user_message : Message.t :=
  Message.mk user_message_id User "Plan a 3-day trip to Kyoto" 101 None.

Definition kyoto_assistant_message : Message.t :=
  Message.mk assistant_message_id Assistant "Day 1: Fushimi Inari. Day 2: Arashiyama. Day 3: Gion." 102
    (Some (mkMessageMetadata (Some 42) (Some "gpt-4") None None)).

(** The scenario: create "Trip Planning", save the user message and the
    assistant message ([tokens = 42]), then [getConversation]; on the local
    adapter in a browser with an empty store. *)
Definition trip_planning_local : Result (option ObjValue) :=
  bind_result (local_createConversation (mkLocalEnv true true None)
                 (Some "Trip Planning") trip_id 100 100) (fun '(env1, c) =>
  bind_result (local_saveMessage env1 (Conversation.id c) kyoto_user_message 101)
    (fun '(env2, _) =>
  bind_result (local_saveMessage env2 (Conversation.id c) kyoto_assistant_message 102)
    (fun '(env3, _) =>
  Done (local_getConversation env3 (Conversation.id c))))).

(** The same scenario on the remote adapter, for the user [alice_id], the
    backend applying every statement. *)
Definition trip_planning_remote : Result (option Conversation.t) :=
  bind_result (sb_createConversation (Some alice_id) (mkDatabase [] [])
                 (Some "Trip Planning") trip_id 100 Applied) (fun '(db1, c) =>
  bind_result (sb_saveMessage db1 (Conversation.id c) kyoto_user_message 101 Applied Applied)
    (fun db2 =>
  bind_result (sb_saveMessage db2 (Conversation.id c) kyoto_assistant_message 102
                 Applied Applied)
    (fun db3 =>
  Done (sb_getConversation db3 (Conversation.id c))))).

(** A [Partial<Conversation>] with no field set. *)
Definition no_conversation_updates : ConversationUpdate :=
  mkConversationUpdate None None None None None None.

(** Two stored conversations last active in the same millisecond. *)
Definition tied_conversation (id : string) : Conversation.t :=
  Conversation.mk id (Some "New Conversation") [] 50 50 (Some zero_metadata).

Definition tied_env : LocalEnv :=
  mkLocalEnv true true
    (Some (Json (mkStorageData [("a", tied_conversation "a"); ("b", tied_conversation "b")]))).

(** A remote database holding one conversation of [alice_id], with no
    message. *)
Definition db_one_conversation : Database :=
  mkDatabase
    [ConversationRow.mk trip_id (Some "Trip Planning") (Some alice_id) 50 50 zero_metadata]
    [].

(** Every failure the predicate accepts, over the first [n] attempts. *)
Definition all_fail_retryably (opts : RetryOptions) (fn : nat -> Outcome)
    (n : nat) : Prop :=
  forall i, (i < n)%nat -> exists e, fn i = Throw e /\ shouldRetry opts e = true.

(** A retryable network failure. *)
Definition network_thrown : Thrown := ThrownError (mkJsError "Network error").

Definition network_error : Outcome := Throw network_thrown.

(** Outside [Closed], at least [threshold] failures have been counted. *)
Definition breaker_inv (b : CircuitBreaker) : Prop :=
  state b = Closed \/ failures b >= threshold b.


(** A remote database with the conversation [trip_id] and one message of
    it, written at time 10. *)
Definition db_one_message : Database :=
  mkDatabase
    [ConversationRow.mk trip_id (Some "Trip Planning") (Some alice_id) 0 10 zero_metadata]
    [MessageRow.mk user_message_id trip_id User "Plan a 3-day trip to Kyoto" 10
       empty_message_metadata].

(** A remote database with the conversation [trip_id] and the assistant
    message of the Kyoto scenario. *)
Definition db_assistant_message : Database :=
  mkDatabase
    [ConversationRow.mk trip_id (Some "Trip Planning") (Some alice_id) 100 102 zero_metadata]
    [MessageRow.mk assistant_message_id trip_id Assistant
       (Message.content kyoto_assistant_message) 102
       (mkMessageMetadata (Some 42) (Some "gpt-4") None None)].

(** A browser store holding "c1" with the assistant message of the
    Kyoto scenario. *)
Definition env_one_assistant_message : LocalEnv :=
  mkLocalEnv true true (Some (Json (mkStorageData
    [("c1"%string, Conversation.mk "c1" (Some "Trip Planning")
                     [kyoto_assistant_message] 100 102
                     (Some (mkConversationMetadata (Some 42) (Some 1) None)))]))).

(** An update that supplies only [metadata.tokens]. *)
Definition tokens_only_update : MessageUpdate :=
  mkMessageUpdate None None None None (Some (mkMessageMetadata (Some 10) None None None)).

(* ================================================================== *)
(** ** The deletions of [SupabaseChatAdapter] *)

(** [deleteMessage]: [delete().eq('id', messageId)] on [messages]. *)
Definition sb_deleteMessage (db : Database) (messageId : string) (reply : Reply)
    : Result Database :=
  run_write "delete message" reply db (mkDatabase (conversation_rows db)
    (filter (fun r => negb (String.eqb (MessageRow.id r) messageId)) (message_rows db))).

(** [deleteConversation]: [delete().eq('id', conversationId)] on
    [conversations]; [ON DELETE CASCADE] then removes the message rows that
    reference a deleted row. *)
Definition sb_deleteConversation (db : Database) (conversationId : string)
    (reply : Reply) : Result Database :=
  let deleted := filter (fun r => String.eqb (ConversationRow.id r) conversationId)
                   (conversation_rows db) in
  run_write "delete conversation" reply db (mkDatabase
    (filter (fun r => negb (String.eqb (ConversationRow.id r) conversationId))
       (conversation_rows db))
    (filter (fun m => negb (existsb (fun r => String.eqb (ConversationRow.id r)
                                                      (MessageRow.conversation_id m))
                              deleted))
       (message_rows db))).

(** The primary keys of both tables. *)
Definition pk_ok (db : Database) : Prop :=
  NoDup (map ConversationRow.id (conversation_rows db)) /\
  NoDup (map MessageRow.id (message_rows db)).

(* ================================================================== *)
(** ** Error classes and handlers ([errors.ts]) *)

(** A value as [JSON.stringify] writes it, or a value on which it throws a
    [TypeError] (a [BigInt], a cyclic object). *)
Inductive JsonValue :=
| JString (s : string)
| JNumber (n : Z)
| JObject (fields : list (string * JsonValue))
| JUnserializable.


(** An [AppError] instance: its [name], its [message] and the public fields
    of the constructor; [app_details] is the JSON of the value passed as
    [details], [None] for [undefined]. *)
Record AppError := mkAppError {
  app_name : string;
  app_message : string;
  statusCode : Z;
  app_code : option string;
  app_details : option JsonValue
}.

(** The values [handleApiError] and [getUserFriendlyError] tell apart. *)
Inductive ErrorValue :=
| AppErrorValue (a : AppError)   (* [instanceof AppError] *)
| PlainError (e : JsError)       (* [instanceof Error], not an [AppError] *)
| NonError (v : string).         (* any other thrown value *)

(** [new AppError(message, statusCode = 500, code?, details?)]. *)
Definition new_AppError (message : string) (statusCode : option Z)
    (code : option string) (details : option JsonValue) : AppError :=
  mkAppError "AppError" message (override 500 statusCode) code details.

Definition new_ValidationError (message : string) (details : option JsonValue) : AppError :=
  mkAppError "ValidationError" message 400 (Some "VALIDATION_ERROR") details.

Definition new_AuthenticationError (message : option string) : AppError :=
  mkAppError "AuthenticationError" (override "Authentication required" message) 401
    (Some "AUTH_ERROR") None.

Definition new_AuthorizationError (message : option string) : AppError :=
  mkAppError "AuthorizationError" (override "Permission denied" message) 403
    (Some "AUTHORIZATION_ERROR") None.

Definition new_NotFoundError (message : option string) : AppError :=
  mkAppError "NotFoundError" (override "Resource not found" message) 404
    (Some "NOT_FOUND_ERROR") None.

Definition new_RateLimitError (message : option string) : AppError :=
  mkAppError "RateLimitError"
    (override "Too many requests. Please try again later." message) 429
    (Some "RATE_LIMIT_ERROR") None.

Definition new_LLMError (message : string) (details : option JsonValue) : AppError :=
  mkAppError "LLMError" message 500 (Some "LLM_ERROR") details.

Definition new_ToolExecutionError (message : string) (details : option JsonValue) : AppError :=
  mkAppError "ToolExecutionError" message 500 (Some "TOOL_ERROR") details.







Definition ERROR_MESSAGES : list (string * string) :=
  [("NETWORK_ERROR", "Unable to connect. Please check your internet connection.");
   ("TIMEOUT_ERROR", "The request took too long. Please try again.");
   ("AUTH_REQUIRED", "Please log in to continue.");
   ("AUTH_EXPIRED", "Your session has expired. Please log in again.");
   ("PERMISSION_DENIED", "You don't have permission to perform this action.");
   ("LLM_RATE_LIMIT", "Too many requests. Please wait a moment and try again.");
   ("LLM_ERROR", "Unable to process your request right now. Please try again.");
   ("INVALID_INPUT", "Please check your input and try again.");
   ("MESSAGE_TOO_LONG", "Your message is too long. Please shorten it and try again.");
   ("TOOL_ERROR", "Unable to complete the action. Please try again.");
   ("UNKNOWN_ERROR", "Something went wrong. Please try again.")].

Fixpoint assoc_lookup (l : list (string * string)) (k : string) : option string :=
  match l with
  | [] => None
  | (k', v) :: l' => if String.eqb k k' then Some v else assoc_lookup l' k
  end.

(** [ERROR_MESSAGES.KEY] for a key the object has. *)
Definition error_message (key : string) : string :=
  match assoc_lookup ERROR_MESSAGES key with Some s => s | None => "" end.

(** What [ERROR_MESSAGES[key]] reads: an own string property, a member
    inherited from [Object.prototype] (a function, or the prototype itself
    for [__proto__]; truthy either way), or [undefined]. *)
Inductive PropertyValue :=
| OwnString (s : string)
| Inherited (member : string)
| Undefined.

Definition ERROR_MESSAGES_get (key : string) : PropertyValue :=
  match assoc_lookup ERROR_MESSAGES key with
  | Some s => OwnString s
  | None =>
      if existsb (String.eqb key) object_prototype_members then Inherited key
      else Undefined
  end.

(** What [getUserFriendlyError] returns: a string, or the inherited member
    [ERROR_MESSAGES[key]] evaluated to. *)
Inductive FriendlyResult :=
| Text (s : string)
| Member (member : string).

(** The [if (error instanceof Error)] block: the case-sensitive patterns. *)
Definition message_patterns (message : string) : option string :=
  if includes message "network" || includes message "fetch"
  then Some (error_message "NETWORK_ERROR")
  else if includes message "timeout" then Some (error_message "TIMEOUT_ERROR")
  else if includes message "rate limit" || includes message "429"
  then Some (error_message "LLM_RATE_LIMIT")
  else if includes message "auth" then Some (error_message "AUTH_REQUIRED")
  else None.

Definition friendly_of_message (message : string) : FriendlyResult :=
  match message_patterns message with
  | Some s => Text s
  | None => Text (error_message "UNKNOWN_ERROR")
  end.

Definition getUserFriendlyError (error : ErrorValue) : FriendlyResult :=
  match error with
  | AppErrorValue a =>
      match app_code a with
      | Some (String c s) =>
          match ERROR_MESSAGES_get (String c s) with
          | OwnString (String c' s') => Text (String c' s')
          | Inherited member => Member member
          | _ => Text (app_message a)
          end
      | _ => friendly_of_message (app_message a)
      end
  | PlainError e => friendly_of_message (message e)
  | NonError _ => Text (error_message "UNKNOWN_ERROR")
  end.

(* ================================================================== *)
(** * Properties *)

(* ------------------------------------------------------------------ *)
(** ** Retry *)

Lemma retry_loop_fuel0 opts fn a le :
  retry_loop opts fn O a le = ([], LLMError (maxRetries opts) le).
Proof. reflexivity. Qed.

Lemma retry_loop_shape opts fn fuel a le :
  (fuel > 0)%nat -> Z.of_nat (a + fuel) = maxRetries opts ->
  let '(evs, _) := retry_loop opts fn fuel a le in
  (1 <= invocations evs <= fuel)%nat /\
  evs = spaced_trace opts a (invocations evs).
Proof.
  revert a le. induction fuel as [|fuel IH]; intros a le Hf Hm; [lia|].
  cbn [retry_loop].
  destruct (fn a) as [v|e]; [cbn; split; [lia|reflexivity]|].
  destruct (negb (shouldRetry opts e)); [cbn; split; [lia|reflexivity]|].
  destruct fuel as [|fuel'].
  - assert (Hlt : (Z.of_nat a <? maxRetries opts - 1) = false) by (apply Z.ltb_ge; lia).
    rewrite Hlt. cbn. split; [lia|reflexivity].
  - assert (Hlt : (Z.of_nat a <? maxRetries opts - 1) = true) by (apply Z.ltb_lt; lia).
    rewrite Hlt.
    specialize (IH (S a) (Some (as_error e)) ltac:(lia) ltac:(lia)).
    destruct (retry_loop opts fn (S fuel') (S a) (Some (as_error e))) as [evs r].
    destruct IH as [Hk Heq]. cbn.
    split; [lia|].
    destruct (invocations evs) as [|k] eqn:Hi; [lia|].
    cbn. rewrite Heq at 1. reflexivity.
Qed.

Lemma withRetry_opts_nonpos opts fn :
  maxRetries opts <= 0 -> withRetry_opts opts fn = ([], LLMError (maxRetries opts) None).
Proof.
  intros H. unfold withRetry_opts.
  replace (Z.to_nat (maxRetries opts)) with O by lia. reflexivity.
Qed.

Lemma retry_loop_exhaust opts fn fuel a le e_last :
  (fuel > 0)%nat ->
  (forall i, (a <= i < a + fuel)%nat ->
     exists e, fn i = Throw e /\ shouldRetry opts e = true) ->
  fn (a + fuel - 1)%nat = Throw e_last ->
  let '(evs, r) := retry_loop opts fn fuel a le in
  r = LLMError (maxRetries opts) (Some (as_error e_last)) /\
  invocations evs = fuel.
Proof.
  revert a le. induction fuel as [|fuel IH]; intros a le Hf Hall Hlast; [lia|].
  cbn [retry_loop].
  destruct (Hall a ltac:(lia)) as [e [He Hr]]. rewrite He, Hr. cbn [negb].
  destruct fuel as [|fuel'].
  - replace (a + 1 - 1)%nat with a in Hlast by lia.
    rewrite He in Hlast. injection Hlast as ->.
    destruct (Z.of_nat a <? maxRetries opts - 1); split; reflexivity.
  - specialize (IH (S a) (Some (as_error e)) ltac:(lia)
                  ltac:(intros i Hi; apply Hall; lia)
                  ltac:(replace (S a + S fuel' - 1)%nat with (a + S (S fuel') - 1)%nat by lia;
                        exact Hlast)).
    destruct (retry_loop opts fn (S fuel') (S a) (Some (as_error e))) as [evs r].
    destruct IH as [Hr' Hi].
    destruct (Z.of_nat a <? maxRetries opts - 1); cbn; split; auto.
Qed.

Lemma withRetry_opts_shape opts fn :
  let '(evs, _) := withRetry_opts opts fn in
  evs = spaced_trace opts 0 (invocations evs).
Proof.
  destruct (Z_le_gt_dec (maxRetries opts) 0) as [Hle|Hgt].
  - rewrite (withRetry_opts_nonpos opts fn Hle). reflexivity.
  - unfold withRetry_opts.
    pose proof (retry_loop_shape opts fn (Z.to_nat (maxRetries opts)) 0 None
                  ltac:(lia) ltac:(lia)) as H.
    destruct (retry_loop opts fn (Z.to_nat (maxRetries opts)) 0 None) as [evs r].
    exact (proj2 H).
Qed.

(** C6 *)
(** C6: after failed attempt [i] the wait before the next attempt is
    [min(baseDelay * backoffMultiplier^i, maxDelay)] and no wait follows the
    last attempt: the trace of every run is [spaced_trace].  With
    [baseDelay = 1000], [backoffMultiplier = 2], [maxDelay = 3000] and an
    operation that always fails retryably, the wait before attempt 3 is
    3000, not 4000. *)
Theorem withRetry_waits_capped_backoff :
  (forall opts fn,
     let '(evs, _) := withRetry_opts opts fn in
     evs = spaced_trace opts 0 (invocations evs)) /\
  fst (withRetry (fun _ => network_error)
         (mkPartialRetryOptions (Some 4) (Some 1000) (Some 3000) (Some 2) None)) =
    [Invoke 0; Sleep 1000; Invoke 1; Sleep 2000; Invoke 2; Sleep 3000; Invoke 3].
Proof.
  split.
  - exact withRetry_opts_shape.
  - vm_compute. reflexivity.
Qed.

(** C5 (amended) *)
(** C5: with [maxRetries = 3], an operation that fails twice retryably and
    then succeeds is invoked three times and its value is returned; with
    [maxRetries >= 1], an operation whose first failure is rejected by
    [shouldRetry] is invoked once, with no wait, and that very value is
    rethrown; and when all [maxRetries >= 1] attempts fail retryably,
    [withRetry] rejects with an [LLMError] whose [originalError] is the last
    thrown value if it is an [Error], and [new Error('Unknown error')]
    otherwise; with [maxRetries <= 0] the operation is never invoked and
    [withRetry] rejects with an [LLMError] carrying no original error. *)
Theorem withRetry_retry_contract :
  (forall opts fn e0 e1 v,
     maxRetries opts = 3 ->
     fn 0%nat = Throw e0 -> shouldRetry opts e0 = true ->
     fn 1%nat = Throw e1 -> shouldRetry opts e1 = true ->
     fn 2%nat = Ok v ->
     let '(evs, r) := withRetry_opts opts fn in
     r = Returned v /\ invocations evs = 3%nat) /\
  (forall opts fn e,
     maxRetries opts >= 1 ->
     fn 0%nat = Throw e -> shouldRetry opts e = false ->
     withRetry_opts opts fn = ([Invoke 0], Rethrown e)) /\
  (forall opts fn e_last,
     maxRetries opts >= 1 ->
     all_fail_retryably opts fn (Z.to_nat (maxRetries opts)) ->
     fn (Z.to_nat (maxRetries opts) - 1)%nat = Throw e_last ->
     let '(evs, r) := withRetry_opts opts fn in
     r = LLMError (maxRetries opts) (Some (as_error e_last)) /\
     invocations evs = Z.to_nat (maxRetries opts)) /\
  (forall opts fn,
     maxRetries opts <= 0 ->
     withRetry_opts opts fn = ([], LLMError (maxRetries opts) None)).
Proof.
  split; [|split; [|split]].
  - intros opts fn e0 e1 v Hm H0 R0 H1 R1 H2.
    unfold withRetry_opts. rewrite Hm. change (Z.to_nat 3) with 3%nat.
    cbn [retry_loop]. rewrite H0, R0. cbn [negb]. rewrite Hm.
    cbn [retry_loop]. rewrite H1, R1. cbn [negb].
    rewrite H2. cbn. split; reflexivity.
  - intros opts fn e Hm H0 R0.
    unfold withRetry_opts.
    destruct (Z.to_nat (maxRetries opts)) as [|n] eqn:Hn; [lia|].
    cbn. rewrite H0, R0. reflexivity.
  - intros opts fn e_last Hm Hall Hlast.
    pose proof (retry_loop_exhaust opts fn (Z.to_nat (maxRetries opts)) 0 None e_last
                  ltac:(lia) ltac:(intros i Hi; apply Hall; lia) Hlast) as Hx.
    exact Hx.
  - exact withRetry_opts_nonpos.
Qed.

(** C5 witness *)
Lemma withRetry_retry_contract_witness :
  (let '(evs, r) :=
     withRetry (fun i => match i with
                         | 0%nat | 1%nat => network_error
                         | _ => Ok 7 end)
       (mkPartialRetryOptions None None None None None) in
   r = Returned 7 /\ invocations evs = 3%nat) /\
  withRetry (fun _ => Throw (ThrownError (mkJsError "Invalid API key")))
    (mkPartialRetryOptions None None None None None) =
    ([Invoke 0], Rethrown (ThrownError (mkJsError "Invalid API key"))) /\
  (let '(evs, r) :=
     withRetry (fun _ => network_error)
       (mkPartialRetryOptions None None None None None) in
   r = LLMError 3 (Some (mkJsError "Network error")) /\ invocations evs = 3%nat) /\
  withRetry (fun _ => Throw (ThrownError (mkJsError "Invalid API key")))
    (mkPartialRetryOptions (Some 0) None None None None) = ([], LLMError 0 None).
Proof.
  destruct withRetry_retry_contract as [Ha [Hb [Hc Hd]]].
  split; [|split; [|split]].
  - apply (Ha _ _ network_thrown network_thrown 7); vm_compute; reflexivity.
  - apply Hb; vm_compute; try reflexivity; discriminate.
  - apply (Hc (merge_options (mkPartialRetryOptions None None None None None))
              (fun _ => network_error) (ThrownError (mkJsError "Network error"))).
    + vm_compute. discriminate.
    + intros i Hi. exists (ThrownError (mkJsError "Network error")).
      split; [reflexivity|vm_compute; reflexivity].
    + reflexivity.
  - apply (Hd (merge_options (mkPartialRetryOptions (Some 0) None None None None))).
    vm_compute. discriminate.
Defined.

(** C5 counterexample *)
(** C5 fails as stated: an operation that always throws a non-[Error] value
    accepted by [shouldRetry] exhausts its attempts, and the [LLMError]
    wraps a fresh [Error('Unknown error')], not the thrown value; and with
    [maxRetries = 0] an operation failing non-retryably is never invoked. *)
Lemma withRetry_retry_contract_counterexample :
  withRetry (fun _ => Throw (ThrownOther "boom"))
    (mkPartialRetryOptions (Some 2) None None None (Some (fun _ => true))) =
    ([Invoke 0; Sleep 1000; Invoke 1],
     LLMError 2 (Some (mkJsError "Unknown error"))) /\
  invocations (fst (withRetry (fun _ => Throw (ThrownError (mkJsError "Invalid API key")))
    (mkPartialRetryOptions (Some 0) None None None None))) = 0%nat.
Proof. split; vm_compute; reflexivity. Qed.

(* ------------------------------------------------------------------ *)
(** ** Circuit breaker *)

Lemma execute_enter_inv b t b1 :
  breaker_inv b -> execute_enter b t = Some b1 -> breaker_inv b1.
Proof.
  unfold execute_enter, breaker_inv. intros Hi He.
  destruct (state b) eqn:Hs.
  - injection He as <-. left. exact Hs.
  - destruct (t - lastFailureTime b >? timeout b); [|discriminate].
    injection He as <-. destruct Hi as [Hc|Hf]; [congruence|]. right. exact Hf.
  - injection He as <-. destruct Hi as [Hc|Hf]; [left; congruence|right; exact Hf].
Qed.

Lemma execute_settle_inv b res t :
  breaker_inv b -> breaker_inv (execute_settle b res t).
Proof.
  unfold execute_settle, breaker_inv. intros Hi.
  destruct res as [v|e]; cbn; [left; reflexivity|].
  destruct (failures b + 1 >=? threshold b) eqn:Hge.
  - right. apply Z.geb_le in Hge. lia.
  - destruct Hi as [Hc|Hf]; [left; exact Hc|].
    rewrite Z.geb_leb in Hge. apply Z.leb_gt in Hge. lia.
Qed.

Lemma reachable_inv b : reachable b -> breaker_inv b.
Proof.
  induction 1 as [th to|b t0 res t1 Hr IH|b Hr IH].
  - left. reflexivity.
  - unfold execute. destruct (execute_enter b t0) as [b1|] eqn:He; cbn; [|exact IH].
    apply execute_settle_inv. exact (execute_enter_inv b t0 b1 IH He).
  - left. reflexivity.
Qed.

Lemma run_calls_reachable b calls :
  reachable b -> reachable (run_calls b calls).
Proof.
  revert b. induction calls as [|[[t0 res] t1] calls IH]; intros b Hr; cbn.
  - exact Hr.
  - apply IH. apply reach_execute. exact Hr.
Qed.

(** C4 *)
(** C4: along every sequence of awaited calls, a call in [Closed] that fails
    counts one more consecutive failure and opens the breaker exactly when
    the count reaches [threshold] (a success resets it to zero); in [Open], a
    call arriving with [now - lastFailureTime > timeout] moves the breaker to
    [HalfOpen] and is let through; a successful probe in [HalfOpen] closes it
    with a zero count, a failed probe re-opens it; and a call arriving in
    [Open] before the cooldown is rejected without the operation being
    called, leaving the breaker as it is. *)
Theorem circuit_breaker_transitions (b : CircuitBreaker) (Hr : reachable b) :
  (state b = Closed -> forall t0 e t1,
     let b' := fst (execute b t0 (Throw e) t1) in
     failures b' = failures b + 1 /\
     state b' = (if failures b + 1 >=? threshold b then Open else Closed)) /\
  (state b = Closed -> forall t0 v t1,
     let b' := fst (execute b t0 (Ok v) t1) in
     failures b' = 0 /\ state b' = Closed) /\
  (state b = Open -> forall t0, t0 - lastFailureTime b > timeout b ->
     exists b1, execute_enter b t0 = Some b1 /\ state b1 = HalfOpen /\
                failures b1 = failures b) /\
  (forall t0 b1, execute_enter b t0 = Some b1 -> state b1 = HalfOpen ->
     (forall v t1, state (execute_settle b1 (Ok v) t1) = Closed /\
                   failures (execute_settle b1 (Ok v) t1) = 0) /\
     (forall e t1, state (execute_settle b1 (Throw e) t1) = Open)) /\
  (state b = Open -> forall t0 res t1, t0 - lastFailureTime b <= timeout b ->
     execute b t0 res t1 = (b, CircuitOpenRejected)).
Proof.
  pose proof (reachable_inv b Hr) as Hi.
  split; [|split; [|split; [|split]]].
  - intros Hs t0 e t1. unfold execute, execute_enter. rewrite Hs. cbn.
    rewrite Hs. split; reflexivity.
  - intros Hs t0 v t1. unfold execute, execute_enter. rewrite Hs. cbn.
    split; reflexivity.
  - intros Hs t0 Ht. exists (set_state b HalfOpen).
    unfold execute_enter. rewrite Hs.
    replace (t0 - lastFailureTime b >? timeout b) with true by (symmetry; apply Z.gtb_lt; lia).
    repeat split.
  - intros t0 b1 He Hh.
    pose proof (execute_enter_inv b t0 b1 Hi He) as Hi1.
    split.
    + intros v t1. split; reflexivity.
    + intros e t1. unfold execute_settle, onFailure. cbn.
      destruct Hi1 as [Hc|Hf]; [congruence|].
      replace (failures b1 + 1 >=? threshold b1) with true; [reflexivity|].
      symmetry. apply Z.geb_le. lia.
  - intros Hs t0 res t1 Ht. unfold execute, execute_enter. rewrite Hs.
    replace (t0 - lastFailureTime b >? timeout b) with false; [reflexivity|].
    symmetry. rewrite Z.gtb_ltb. apply Z.ltb_ge. lia.
Qed.

(** C4 witness *)
Lemma circuit_breaker_transitions_witness :
  state breaker_after_five_failures = Open /\
  execute breaker_after_five_failures 1000 (Ok 1) 1001 =
    (breaker_after_five_failures, CircuitOpenRejected) /\
  (exists b1, execute_enter breaker_after_five_failures 60200 = Some b1 /\
              state b1 = HalfOpen /\ failures b1 = 5).
Proof.
  pose proof (circuit_breaker_transitions breaker_after_five_failures
                (run_calls_reachable _ _ (reach_new 5 60000))) as [_ [_ [H3 [_ H5]]]].
  split; [vm_compute; reflexivity|]. split.
  - apply H5; vm_compute; [reflexivity|discriminate].
  - apply H3; vm_compute; reflexivity.
Defined.

(* ------------------------------------------------------------------ *)
(** ** The stable sort *)

Section SortByKey.
Context {A : Type} (key : A -> Z).

Lemma insert_by_key_perm x l :
  Permutation (insert_by_key key x l) (x :: l).
Proof.
  induction l as [|y l IH]; cbn; [reflexivity|].
  destruct (key x <? key y); [reflexivity|].
  rewrite IH. apply perm_swap.
Qed.

Lemma sort_by_key_perm_acc l acc :
  Permutation (fold_left (fun acc x => insert_by_key key x acc) l acc) (acc ++ l).
Proof.
  revert acc. induction l as [|x l IH]; intros acc; cbn.
  - rewrite app_nil_r. reflexivity.
  - rewrite IH, insert_by_key_perm. cbn.
    apply Permutation_middle.
Qed.

Lemma sort_by_key_perm l : Permutation (sort_by_key key l) l.
Proof. apply sort_by_key_perm_acc. Qed.

Lemma insert_by_key_sorted x l :
  Sorted (fun a b => key a <= key b) l ->
  Sorted (fun a b => key a <= key b) (insert_by_key key x l).
Proof.
  induction 1 as [|y l Hs IH Hhd]; cbn.
  - repeat constructor.
  - destruct (key x <? key y) eqn:Hxy.
    + apply Z.ltb_lt in Hxy. constructor; [constructor; assumption|].
      constructor. lia.
    + apply Z.ltb_ge in Hxy. constructor; [exact IH|].
      destruct l as [|z l]; cbn.
      * constructor. lia.
      * inversion Hhd; subst.
        destruct (key x <? key z); constructor; lia.
Qed.

Lemma sort_by_key_sorted l :
  Sorted (fun a b => key a <= key b) (sort_by_key key l).
Proof.
  unfold sort_by_key.
  assert (H : forall acc, Sorted (fun a b => key a <= key b) acc ->
             Sorted (fun a b => key a <= key b)
               (fold_left (fun acc x => insert_by_key key x acc) l acc)).
  { induction l as [|x l IH]; intros acc Hacc; cbn; [exact Hacc|].
    apply IH. apply insert_by_key_sorted. exact Hacc. }
  apply H. constructor.
Qed.

(** An element whose key is strictly below every other one comes first. *)
Lemma sort_by_key_head l1 x l2 :
  (forall y, In y (l1 ++ l2) -> key x < key y) ->
  hd_error (sort_by_key key (l1 ++ x :: l2)) = Some x.
Proof.
  intros Hlt.
  pose proof (sort_by_key_perm (l1 ++ x :: l2)) as Hp.
  pose proof (Sorted_StronglySorted
                (ltac:(intros a b c; lia) : Relations_1.Transitive
                                              (fun a b => key a <= key b))
                (sort_by_key_sorted (l1 ++ x :: l2))) as Hs.
  destruct (sort_by_key key (l1 ++ x :: l2)) as [|h s'] eqn:E.
  - apply Permutation_nil in Hp. destruct l1; discriminate.
  - cbn. f_equal.
    assert (Hh : In h (l1 ++ x :: l2)) by (apply (Permutation_in _ Hp); left; reflexivity).
    assert (Hx : In x (h :: s')).
    { apply (Permutation_in _ (Permutation_sym Hp)). apply in_or_app. right. left. reflexivity. }
    apply StronglySorted_inv in Hs. destruct Hs as [_ Hall].
    rewrite Forall_forall in Hall.
    apply in_app_or in Hh. destruct Hh as [Hh|[Hh|Hh]]; [| symmetry; exact Hh |].
    + specialize (Hlt h ltac:(apply in_or_app; left; exact Hh)).
      destruct Hx as [Hx|Hx]; [subst; lia|]. specialize (Hall x Hx). lia.
    + specialize (Hlt h ltac:(apply in_or_app; right; exact Hh)).
      destruct Hx as [Hx|Hx]; [subst; lia|]. specialize (Hall x Hx). lia.
Qed.


End SortByKey.

(* ------------------------------------------------------------------ *)
(** ** Local adapter without a [window] *)



Lemma prototype_member_spec k :
  existsb (String.eqb k) object_prototype_members = true <->
  In k object_prototype_members.
Proof.
  rewrite existsb_exists. split.
  - intros [x [Hx E]]. apply String.eqb_eq in E. subst. exact Hx.
  - intros H. exists k. split; [exact H|apply String.eqb_refl].
Qed.

Lemma prototype_member_false k :
  ~ In k object_prototype_members ->
  existsb (String.eqb k) object_prototype_members = false.
Proof.
  intros H. destruct (existsb (String.eqb k) object_prototype_members) eqn:E;
    [|reflexivity].
  exfalso. apply H, prototype_member_spec, E.
Qed.

Lemma obj_lookup_absent l k :
  obj_get l k = None -> ~ In k object_prototype_members -> obj_lookup l k = None.
Proof.
  intros Hg Hm. unfold obj_lookup. rewrite Hg, prototype_member_false by exact Hm.
  reflexivity.
Qed.





(* ------------------------------------------------------------------ *)
(** ** [clearAll] *)




(* ------------------------------------------------------------------ *)
(** ** [createConversation] *)

Lemma obj_get_set_same l k v : obj_get (obj_set l k v) k = Some v.
Proof.
  induction l as [|[k' v'] l IH]; cbn.
  - rewrite String.eqb_refl. reflexivity.
  - destruct (String.eqb k k') eqn:E; cbn; rewrite E; [reflexivity|exact IH].
Qed.

Lemma saveAll_browser env d :
  window_defined env = true -> setItem_succeeds env = true ->
  saveAll env d = Done (mkLocalEnv true true (Some (Json d))).
Proof.
  intros Hw Hs. unfold saveAll. rewrite Hw, Hs. destruct env; cbn in *. subst. reflexivity.
Qed.

Lemma getAll_saved d : getAll (mkLocalEnv true true (Some (Json d))) = d.
Proof. reflexivity. Qed.

Lemma filter_all_false {A} (f : A -> bool) l :
  (forall x, In x l -> f x = false) -> filter f l = [].
Proof.
  induction l as [|x l IH]; intros H; cbn; [reflexivity|].
  rewrite (H x (or_introl eq_refl)). apply IH. intros y Hy. apply H. right. exact Hy.
Qed.

Lemma find_none_of_existsb {A} (f : A -> bool) l :
  existsb f l = false -> find f l = None.
Proof.
  induction l as [|x l IH]; cbn; intros H; [reflexivity|].
  apply orb_false_iff in H as [H1 H2]. rewrite H1. exact (IH H2).
Qed.

Lemma find_app {A} (f : A -> bool) l1 l2 :
  find f (l1 ++ l2) = match find f l1 with Some x => Some x | None => find f l2 end.
Proof.
  induction l1 as [|x l1 IH]; cbn; [reflexivity|].
  destruct (f x); [reflexivity|exact IH].
Qed.

(** C7 *)
(** C7: in a browser with a writable store, the local [createConversation]
    returns the conversation with id [uuidv4()], its title or
    ['New Conversation'], no messages and zeroed counters, and
    [getConversation] on that id then returns it; but [createdAt] and
    [updatedAt] are two separate reads of the clock, so they differ when
    the clock ticks between them (here 100 and 101).  The remote adapter
    does the same with one clock read for both timestamps, whenever the new
    id is not already a row of a database that satisfies its foreign key
    and the backend accepts the insert. *)
Theorem createConversation_clock_reads :
  (forall env title uuid t1 t2,
     window_defined env = true -> setItem_succeeds env = true ->
     exists env' c,
       local_createConversation env title uuid t1 t2 = Done (env', c) /\
       c = Conversation.mk uuid (Some (title_or_default title)) [] t1 t2
             (Some zero_metadata) /\
       local_getConversation env' uuid = Some (OwnProperty c)) /\
  (forall userId db title uuid now,
     fk_ok db -> conv_row_exists db uuid = false ->
     exists db' c,
       sb_createConversation userId db title uuid now Applied = Done (db', c) /\
       c = Conversation.mk uuid (Some (title_or_default title)) [] now now
             (Some zero_metadata) /\
       sb_getConversation db' uuid = Some c) /\
  (exists env' c,
     local_createConversation (mkLocalEnv true true None) (Some "Trip Planning")
       trip_id 100 101 = Done (env', c) /\
     Conversation.createdAt c = 100 /\ Conversation.updatedAt c = 101 /\
     local_getConversation env' trip_id = Some (OwnProperty c)).
Proof.
  assert (Hl : forall env title uuid t1 t2,
     window_defined env = true -> setItem_succeeds env = true ->
     exists env' c,
       local_createConversation env title uuid t1 t2 = Done (env', c) /\
       c = Conversation.mk uuid (Some (title_or_default title)) [] t1 t2
             (Some zero_metadata) /\
       local_getConversation env' uuid = Some (OwnProperty c)).
  { intros env title uuid t1 t2 Hw Hs. do 2 eexists. split; [|split; [reflexivity|]].
    + unfold local_createConversation. rewrite saveAll_browser by assumption.
      reflexivity.
    + unfold local_getConversation, obj_lookup. rewrite getAll_saved.
      cbn [conversations]. rewrite obj_get_set_same. reflexivity. }
  split; [exact Hl|split].
  - intros userId db title uuid now Hfk Hnew. do 2 eexists.
    split; [|split; [reflexivity|]].
    + unfold sb_createConversation, insert_conversation_row. cbn [ConversationRow.id].
      rewrite Hnew. reflexivity.
    + unfold sb_getConversation. cbn [conversation_rows].
      rewrite find_app.
      rewrite (find_none_of_existsb _ _ Hnew). cbn. rewrite String.eqb_refl.
      unfold mapToConversation. cbn.
      rewrite filter_all_false; [reflexivity|].
      intros m Hm. specialize (Hfk m Hm).
      destruct (String.eqb (MessageRow.conversation_id m) uuid) eqn:E; [|reflexivity].
      apply String.eqb_eq in E. rewrite E in Hfk. congruence.
  - destruct (Hl (mkLocalEnv true true None) (Some "Trip Planning"%string) trip_id 100 101
                eq_refl eq_refl) as [env' [c [H1 [H2 H3]]]].
    exists env', c. subst c. repeat split; assumption.
Qed.

(** C7 witness *)
Lemma createConversation_clock_reads_witness :
  (exists env' c,
     local_createConversation (mkLocalEnv true true None) (Some "Trip Planning")
       trip_id 100 100 = Done (env', c) /\
     c = Conversation.mk trip_id (Some "Trip Planning") [] 100 100 (Some zero_metadata) /\
     local_getConversation env' trip_id = Some (OwnProperty c)) /\
  (exists db' c,
     sb_createConversation (Some alice_id) (mkDatabase [] []) None trip_id 100 Applied
       = Done (db', c) /\
     c = Conversation.mk trip_id (Some "New Conversation") [] 100 100 (Some zero_metadata) /\
     sb_getConversation db' trip_id = Some c).
Proof.
  destruct createConversation_clock_reads as [Hl [Hr _]]. split.
  - apply Hl; reflexivity.
  - apply Hr; [intros m Hm; destruct Hm | reflexivity].
Defined.

(* ------------------------------------------------------------------ *)
(** ** [saveMessage] *)


Lemma find_some_of_existsb {A} (f : A -> bool) l :
  existsb f l = true -> exists x, find f l = Some x.
Proof.
  induction l as [|x l IH]; cbn; intros H; [discriminate|].
  destruct (f x); [eexists; reflexivity|]. exact (IH H).
Qed.





(* ------------------------------------------------------------------ *)
(** ** The [totalTokens] / [messageCount] counters *)

Lemma sum_tokens_app ms1 ms2 :
  sum_tokens (ms1 ++ ms2) = sum_tokens ms1 + sum_tokens ms2.
Proof. induction ms1 as [|m ms IH]; cbn; [reflexivity|]. rewrite IH. lia. Qed.

(** C1 *)
(** C1: the counters are not kept in step with the messages.  The remote
    [saveMessage], whatever the backend answers, leaves the metadata of
    every conversation row as it was, so the Kyoto scenario on the remote
    adapter ends with two messages and both counters still 0; and the
    local [deleteMessage] removes a message without touching the counters,
    so deleting the one message of a conversation whose counters are
    [totalTokens = 42], [messageCount = 1] leaves them at 42 and 1 over no
    message. *)
Theorem conversation_counters_diverge :
  (forall db cid m now r1 r2 db', sb_saveMessage db cid m now r1 r2 = Done db' ->
     map ConversationRow.metadata (conversation_rows db') =
     map ConversationRow.metadata (conversation_rows db)) /\
  (exists c, trip_planning_remote = Done (Some c) /\
     List.length (Conversation.messages c) = 2%nat /\
     Conversation.metadata c = Some zero_metadata /\
     ~ cache_consistent c) /\
  (exists env' c,
     local_deleteMessage env_one_assistant_message assistant_message_id 200
       = Done (env', tt) /\
     local_getConversation env' "c1" = Some (OwnProperty c) /\
     Conversation.messages c = [] /\
     Conversation.metadata c = Some (mkConversationMetadata (Some 42) (Some 1) None) /\
     ~ cache_consistent c).
Proof.
  split; [|split].
  - intros db cid m now r1 r2 db' H. unfold sb_saveMessage, insert_message_row in H.
    destruct r1; [|discriminate|discriminate].
    cbn [MessageRow.id MessageRow.conversation_id] in H.
    destruct (msg_row_exists db (Message.id m)); [discriminate|].
    destruct (conv_row_exists db cid); cbn in H; [|discriminate].
    destruct r2; injection H as <-; cbn; [|reflexivity|reflexivity].
    rewrite map_map.
    apply map_ext. intros r. destruct (String.eqb (ConversationRow.id r) cid); reflexivity.
  - eexists. split; [vm_compute; reflexivity|].
    split; [reflexivity|]. split; [reflexivity|].
    intros [Ht _]. specialize (Ht 0 eq_refl). vm_compute in Ht. discriminate.
  - do 2 eexists. split; [reflexivity|]. split; [reflexivity|].
    split; [reflexivity|]. split; [reflexivity|].
    intros [Ht _]. specialize (Ht 42 eq_refl). vm_compute in Ht. discriminate.
Qed.

(** C1 witness *)
Lemma conversation_counters_diverge_witness :
  exists db',
    sb_saveMessage db_one_message trip_id kyoto_assistant_message 20 Applied Applied
      = Done db' /\
    map ConversationRow.metadata (conversation_rows db') =
    map ConversationRow.metadata (conversation_rows db_one_message).
Proof.
  destruct conversation_counters_diverge as [H _].
  eexists. split; [reflexivity|].
  apply (H db_one_message trip_id kyoto_assistant_message 20 Applied Applied).
  reflexivity.
Defined.

(** The local [saveMessage] recomputes both counters: in a browser with a
    writable store, saving into a stored conversation whose [totalTokens]
    (absent read as 0) is the token sum of its messages leaves both
    counters present and equal to the token sum and to the number of
    messages; the Kyoto scenario on the local adapter ends with
    [totalTokens = 42] and [messageCount = 2]. *)
Theorem local_saveMessage_recomputes_counters :
  (forall env cid m now c,
     window_defined env = true -> setItem_succeeds env = true ->
     local_getConversation env cid = Some (OwnProperty c) ->
     totalTokens_or_0 (Conversation.metadata c) = sum_tokens (Conversation.messages c) ->
     exists env' c' md,
       local_saveMessage env cid m now = Done (env', tt) /\
       local_getConversation env' cid = Some (OwnProperty c') /\
       Conversation.metadata c' = Some md /\
       totalTokens md = Some (sum_tokens (Conversation.messages c')) /\
       messageCount md = Some (Z.of_nat (List.length (Conversation.messages c'))) /\
       cache_consistent c') /\
  (exists c, trip_planning_local = Done (Some (OwnProperty c)) /\
     option_map totalTokens (Conversation.metadata c) = Some (Some 42) /\
     option_map messageCount (Conversation.metadata c) = Some (Some 2)).
Proof.
  split.
  - intros env cid m now c Hw Hs Hc Htot.
    unfold local_getConversation in Hc.
    do 3 eexists. split; [|split; [|split; [|split; [|split]]]].
    + unfold local_saveMessage. rewrite Hc. rewrite saveAll_browser by assumption.
      reflexivity.
    + unfold local_getConversation, obj_lookup. rewrite getAll_saved. cbn [conversations].
      rewrite obj_get_set_same. reflexivity.
    + reflexivity.
    + cbn. rewrite sum_tokens_app, Htot. cbn. f_equal. lia.
    + reflexivity.
    + cbn. split.
      * intros t Ht. injection Ht as <-. rewrite sum_tokens_app, Htot. cbn. lia.
      * intros n Hn. injection Hn as <-. reflexivity.
  - eexists. split; [vm_compute; reflexivity|split; vm_compute; reflexivity].
Qed.

Lemma local_saveMessage_recomputes_counters_witness :
  exists env' c' md,
    local_saveMessage (mkLocalEnv true true (Some (Json (mkStorageData
        [(trip_id, Conversation.mk trip_id None [] 0 0 None)]))))
      trip_id kyoto_assistant_message 2 = Done (env', tt) /\
    local_getConversation env' trip_id = Some (OwnProperty c') /\
    Conversation.metadata c' = Some md /\
    totalTokens md = Some (sum_tokens (Conversation.messages c')) /\
    messageCount md = Some (Z.of_nat (List.length (Conversation.messages c'))) /\
    cache_consistent c'.
Proof.
  destruct local_saveMessage_recomputes_counters as [Hl _].
  apply (Hl _ trip_id _ 2 (Conversation.mk trip_id None [] 0 0 None)); reflexivity.
Defined.

(* ------------------------------------------------------------------ *)
(** ** [updateMessage] *)

Lemma edit_first_conv_none l edit now :
  (forall p, In p l -> edit (Conversation.messages (snd p)) = None) ->
  edit_first_conv l edit now = None.
Proof.
  induction l as [|[k c] l IH]; intros H; cbn; [reflexivity|].
  rewrite (H (k, c) (or_introl eq_refl) : edit (Conversation.messages c) = None).
  rewrite IH; [reflexivity|].
  intros p Hp. apply H. right. exact Hp.
Qed.

Lemma edit_first_conv_split l1 k c l2 edit now ms :
  (forall p, In p l1 -> edit (Conversation.messages (snd p)) = None) ->
  edit (Conversation.messages c) = Some ms ->
  edit_first_conv (l1 ++ (k, c) :: l2) edit now =
    Some (l1 ++ (k, set_updatedAt (set_messages c ms) now) :: l2).
Proof.
  intros H1 Hc. induction l1 as [|[k0 c0] l1 IH]; cbn.
  - rewrite Hc. reflexivity.
  - rewrite (H1 (k0, c0) (or_introl eq_refl) : edit (Conversation.messages c0) = None).
    rewrite IH; [reflexivity|].
    intros p Hp. apply H1. right. exact Hp.
Qed.

(** C2 *)
(** C2: [updateMessage] does not keep to [content] and [metadata].  The
    local one is [Object.assign] onto the stored message: an update that
    supplies [id], [role] or [timestamp] changes them, and a supplied
    [metadata] replaces the whole bag, so [{ metadata: { tokens: 10 } }]
    drops [model = 'gpt-4'].  The remote one writes the [metadata] column
    as a whole as well, and succeeds, changing nothing, on an id no row
    has. *)
Theorem updateMessage_diverges :
  (exists env',
     local_updateMessage env_one_assistant_message assistant_message_id
       (mkMessageUpdate (Some unknown_message_id) (Some User) None (Some 0) None) 103
       = Done (env', tt) /\
     map Message.id (local_getMessages env' "c1") = [unknown_message_id] /\
     map Message.role (local_getMessages env' "c1") = [User] /\
     map Message.timestamp (local_getMessages env' "c1") = [0]) /\
  (exists env',
     local_updateMessage env_one_assistant_message assistant_message_id
       tokens_only_update 103 = Done (env', tt) /\
     map Message.metadata (local_getMessages env' "c1") =
       [Some (mkMessageMetadata (Some 10) None None None)]) /\
  (exists db',
     sb_updateMessage db_assistant_message assistant_message_id tokens_only_update Applied
       = Done db' /\
     map MessageRow.metadata (message_rows db') = [mkMessageMetadata (Some 10) None None None]) /\
  sb_updateMessage db_one_message unknown_message_id tokens_only_update Applied
    = Done db_one_message.
Proof.
  split; [|split; [|split]].
  - eexists. split; [reflexivity|]. split; [|split]; vm_compute; reflexivity.
  - eexists. split; [reflexivity | vm_compute; reflexivity].
  - eexists. split; [reflexivity | vm_compute; reflexivity].
  - vm_compute. reflexivity.
Qed.

(* ------------------------------------------------------------------ *)
(** ** [listConversations] *)

Lemma Sorted_map_impl {A B} (R : A -> A -> Prop) (R' : B -> B -> Prop) (f : A -> B) l :
  (forall a b, R a b -> R' (f a) (f b)) -> Sorted R l -> Sorted R' (map f l).
Proof.
  intros H Hs. induction Hs as [|a l Hs IH Hhd]; cbn; constructor; [exact IH|].
  destruct Hhd; cbn; constructor. apply H. assumption.
Qed.

Lemma obj_get_split l k c :
  obj_get l k = Some c ->
  exists l1 l2, l = l1 ++ (k, c) :: l2 /\ (forall p, In p l1 -> fst p <> k).
Proof.
  induction l as [|[k' v] l IH]; cbn; intros H; [discriminate|].
  destruct (String.eqb k k') eqn:E.
  - apply String.eqb_eq in E. subst k'. injection H as <-.
    exists [], l. split; [reflexivity|]. intros p [].
  - destruct (IH H) as [l1 [l2 [-> Hl1]]]. exists ((k', v) :: l1), l2.
    split; [reflexivity|]. intros p [<-|Hp]; [|exact (Hl1 p Hp)].
    cbn. intros Heq. subst k'. rewrite String.eqb_refl in E. discriminate.
Qed.

Lemma obj_set_split l1 k c l2 v :
  (forall p, In p l1 -> fst p <> k) ->
  obj_set (l1 ++ (k, c) :: l2) k v = l1 ++ (k, v) :: l2.
Proof.
  induction l1 as [|[k' v'] l1 IH]; intros H; cbn.
  - rewrite String.eqb_refl. reflexivity.
  - destruct (String.eqb k k') eqn:E.
    + apply String.eqb_eq in E. exfalso.
      apply (H (k', v') (or_introl eq_refl)). cbn. symmetry. exact E.
    + rewrite IH; [reflexivity|]. intros p Hp. apply H. right. exact Hp.
Qed.

Lemma obj_get_split_eq l1 k v l2 :
  (forall p, In p l1 -> fst p <> k) -> obj_get (l1 ++ (k, v) :: l2) k = Some v.
Proof.
  induction l1 as [|[k' v'] l1 IH]; intros H; cbn.
  - rewrite String.eqb_refl. reflexivity.
  - destruct (String.eqb k k') eqn:E.
    + apply String.eqb_eq in E. exfalso.
      apply (H (k', v') (or_introl eq_refl)). cbn. symmetry. exact E.
    + apply IH. intros p Hp. apply H. right. exact Hp.
Qed.

Lemma NoDup_map_eq {A B} (f : A -> B) l x y :
  NoDup (map f l) -> In x l -> In y l -> f x = f y -> x = y.
Proof.
  induction l as [|a l IH]; cbn; intros Hnd Hx Hy Hf; [contradiction|].
  inversion Hnd as [|b l' Hnin Hnd' Heq]; subst.
  destruct Hx as [<-|Hx]; destruct Hy as [<-|Hy]; [reflexivity| | |exact (IH Hnd' Hx Hy Hf)].
  - exfalso. apply Hnin. rewrite Hf. apply in_map. exact Hy.
  - exfalso. apply Hnin. rewrite <- Hf. apply in_map. exact Hx.
Qed.

Lemma NoDup_map_filter {A B} (f : A -> B) p l :
  NoDup (map f l) -> NoDup (map f (filter p l)).
Proof.
  induction l as [|a l IH]; cbn; intros Hnd; [constructor|].
  inversion Hnd as [|b l' Hnin Hnd' Heq]; subst.
  destruct (p a); cbn; [|exact (IH Hnd')].
  constructor; [|exact (IH Hnd')].
  intros Hin. apply Hnin. apply in_map_iff in Hin as [x [Hx Hin]].
  apply filter_In in Hin as [Hin _]. rewrite <- Hx. apply in_map. exact Hin.
Qed.

Lemma filter_map_comm {A} (p : A -> bool) (h : A -> A) l :
  (forall x, p (h x) = p x) -> filter p (map h l) = map h (filter p l).
Proof.
  intros H. induction l as [|x l IH]; cbn; [reflexivity|].
  rewrite H. destruct (p x); cbn; rewrite IH; reflexivity.
Qed.

Lemma local_update_moves_to_front env cid u now c :
  window_defined env = true -> setItem_succeeds env = true ->
  NoDup (map fst (conversations (getAll env))) ->
  local_getConversation env cid = Some (OwnProperty c) ->
  (forall k c', In (k, c') (conversations (getAll env)) -> k <> cid ->
     Conversation.updatedAt c' < now) ->
  exists env' c',
    local_updateConversation env cid u now = Done (env', tt) /\
    local_getConversation env' cid = Some (OwnProperty c') /\
    hd_error (local_listConversations env') = Some c'.
Proof.
  intros Hw Hs Hnd Hc Hlt. unfold local_getConversation, obj_lookup in Hc.
  destruct (obj_get (conversations (getAll env)) cid) as [c0|] eqn:Hg;
    [injection Hc as ->|destruct (existsb _ _); discriminate].
  destruct (obj_get_split _ _ _ Hg) as [l1 [l2 [Hd Hl1]]].
  do 2 eexists. split.
  { unfold local_updateConversation, obj_lookup. rewrite Hg.
    rewrite saveAll_browser by assumption. reflexivity. }
  unfold local_getConversation, local_listConversations, obj_lookup.
  rewrite getAll_saved. cbn [conversations].
  rewrite Hd, obj_set_split by exact Hl1.
  rewrite obj_get_split_eq by exact Hl1.
  split; [reflexivity|].
  unfold obj_values. rewrite map_app. cbn [map snd].
  apply sort_by_key_head.
  rewrite Hd, map_app in Hnd. cbn [map fst] in Hnd.
  apply NoDup_remove_2 in Hnd.
  intros y Hy. rewrite <- map_app in Hy. apply in_map_iff in Hy as [[k y'] [Hy Hin]].
  cbn in Hy. subst y'. cbn.
  assert (Hk : k <> cid).
  { intros ->. apply Hnd. rewrite <- map_app. apply (in_map fst _ _ Hin). }
  assert (Hin' : In (k, y) (conversations (getAll env))).
  { rewrite Hd. apply in_app_or in Hin as [Hin|Hin]; apply in_or_app; [left|right; right]; exact Hin. }
  specialize (Hlt k y Hin' Hk). lia.
Qed.

(** C8 *)
(** C8: the remote [listConversations] passes [this.mapToConversation]
    without its receiver, so it throws a [TypeError] as soon as one
    conversation is visible, although [getConversation] reads the same
    row; and the local list, sorted on [updatedAt] alone by a stable sort,
    keeps a conversation updated in the same millisecond as another one's
    last activity behind it when it was stored after it. *)
Theorem listConversations_diverge :
  (forall userId db r, In r (visible_rows userId db) ->
     sb_listConversations userId db = Failed TypeErrorThrown) /\
  sb_listConversations (Some alice_id) db_one_conversation = Failed TypeErrorThrown /\
  sb_getConversation db_one_conversation trip_id <> None /\
  (exists env' c,
     local_updateConversation tied_env "b" no_conversation_updates 50 = Done (env', tt) /\
     local_getConversation env' "b" = Some (OwnProperty c) /\
     hd_error (local_listConversations env') <> Some c).
Proof.
  split; [|split; [|split]].
  - intros userId db r Hr. unfold sb_listConversations.
    destruct (visible_rows userId db); [destruct Hr|reflexivity].
  - reflexivity.
  - vm_compute. discriminate.
  - do 2 eexists. split; [reflexivity|]. split; [reflexivity|].
    vm_compute. intros H; discriminate H.
Qed.

(** C8 witness *)
Lemma listConversations_diverge_witness :
  sb_listConversations None db_one_conversation = Failed TypeErrorThrown.
Proof.
  destruct listConversations_diverge as [H _].
  apply (H None db_one_conversation
           (ConversationRow.mk trip_id (Some "Trip Planning") (Some alice_id) 50 50
              zero_metadata)).
  left. reflexivity.
Defined.

(** The local [listConversations] is sorted by [updatedAt] descending and is
    a permutation of the stored conversations; after [updateConversation]
    at time [now] on a stored conversation (in a browser with a writable
    store, keys unique), that conversation heads the next list whenever
    [now] is strictly later than the [updatedAt] of every other stored
    conversation. *)
Theorem local_listConversations_order :
  (forall env,
     Sorted (fun a b => Conversation.updatedAt b <= Conversation.updatedAt a)
       (local_listConversations env) /\
     Permutation (local_listConversations env) (obj_values (conversations (getAll env)))) /\
  (forall env cid u now c,
     window_defined env = true -> setItem_succeeds env = true ->
     NoDup (map fst (conversations (getAll env))) ->
     local_getConversation env cid = Some (OwnProperty c) ->
     (forall k c', In (k, c') (conversations (getAll env)) -> k <> cid ->
        Conversation.updatedAt c' < now) ->
     exists env' c',
       local_updateConversation env cid u now = Done (env', tt) /\
       local_getConversation env' cid = Some (OwnProperty c') /\
       hd_error (local_listConversations env') = Some c').
Proof.
  split.
  - intros env. split.
    + unfold local_listConversations. rewrite <- map_id.
      apply (Sorted_map_impl (fun a b => - Conversation.updatedAt a <= - Conversation.updatedAt b)).
      * intros a b H. lia.
      * apply sort_by_key_sorted.
    + apply sort_by_key_perm.
  - exact local_update_moves_to_front.
Qed.

Lemma local_listConversations_order_witness :
  exists env' c',
    local_updateConversation tied_env "b" no_conversation_updates 51 = Done (env', tt) /\
    local_getConversation env' "b" = Some (OwnProperty c') /\
    hd_error (local_listConversations env') = Some c'.
Proof.
  destruct local_listConversations_order as [_ Hl].
  apply (Hl tied_env "b" no_conversation_updates 51 (tied_conversation "b"));
    [reflexivity | reflexivity | | reflexivity |].
  - cbn. constructor; [cbn; intros [H|[]]; discriminate|].
    constructor; [intros []|constructor].
  - cbn. intros k c' [H|[H|[]]] Hk; injection H as <- <-; [cbn; lia|].
    exfalso. apply Hk. reflexivity.
Defined.

(* ================================================================== *)
(** * Further properties of the code *)

(* ------------------------------------------------------------------ *)
(** ** The local adapter *)

Lemma remove_message_none ms mid :
  (forall m, In m ms -> Message.id m <> mid) -> remove_message ms mid = None.
Proof.
  induction ms as [|m ms IH]; intros H; cbn; [reflexivity|].
  destruct (String.eqb (Message.id m) mid) eqn:E.
  - apply String.eqb_eq in E. exfalso. exact (H m (or_introl eq_refl) E).
  - rewrite IH; [reflexivity|]. intros m' Hm'. apply H. right. exact Hm'.
Qed.

Lemma remove_message_split pre m post mid :
  (forall m', In m' pre -> Message.id m' <> mid) -> Message.id m = mid ->
  remove_message (pre ++ m :: post) mid = Some (pre ++ post).
Proof.
  intros Hpre Hm. induction pre as [|m0 pre IH]; cbn.
  - rewrite Hm, String.eqb_refl. reflexivity.
  - destruct (String.eqb (Message.id m0) mid) eqn:E.
    + apply String.eqb_eq in E. exfalso. exact (Hpre m0 (or_introl eq_refl) E).
    + rewrite IH; [reflexivity|]. intros m' Hm'. apply Hpre. right. exact Hm'.
Qed.

Lemma obj_get_set_other l k k' v :
  k' <> k -> obj_get (obj_set l k v) k' = obj_get l k'.
Proof.
  intros Hne. induction l as [|[k0 v0] l IH]; cbn.
  - destruct (String.eqb k' k) eqn:E; [apply String.eqb_eq in E; congruence|reflexivity].
  - destruct (String.eqb k k0) eqn:E; cbn.
    + apply String.eqb_eq in E. subst k0.
      destruct (String.eqb k' k) eqn:E'; [apply String.eqb_eq in E'; congruence|reflexivity].
    + destruct (String.eqb k' k0); [reflexivity|exact IH].
Qed.

Lemma obj_get_delete_same l k : obj_get (obj_delete l k) k = None.
Proof.
  induction l as [|[k0 v0] l IH]; cbn; [reflexivity|].
  destruct (String.eqb k k0) eqn:E; cbn; [exact IH|].
  rewrite E. exact IH.
Qed.

Lemma obj_get_delete_other l k k' :
  k' <> k -> obj_get (obj_delete l k) k' = obj_get l k'.
Proof.
  intros Hne. induction l as [|[k0 v0] l IH]; cbn; [reflexivity|].
  destruct (String.eqb k k0) eqn:E; cbn.
  - apply String.eqb_eq in E. subst k0.
    destruct (String.eqb k' k) eqn:E'; [apply String.eqb_eq in E'; congruence|exact IH].
  - destruct (String.eqb k' k0); [reflexivity|exact IH].
Qed.

(** X1 *)
(** [deleteMessage] on the local adapter: when no stored conversation holds
    a message with that id it fails with the not-found error; otherwise, in
    a browser with a writable store, it removes the first such message of
    the first conversation holding one, sets that conversation's
    [updatedAt] to the clock, and leaves its [metadata] (the
    [messageCount] and [totalTokens] counters) as they were. *)
Theorem local_deleteMessage_effect :
  (forall env mid now,
     (forall c m, In c (obj_values (conversations (getAll env))) ->
        In m (Conversation.messages c) -> Message.id m <> mid) ->
     local_deleteMessage env mid now = Failed (MessageNotFound mid)) /\
  (forall env mid now l1 k c l2 pre m post,
     window_defined env = true -> setItem_succeeds env = true ->
     conversations (getAll env) = l1 ++ (k, c) :: l2 ->
     (forall p m', In p l1 -> In m' (Conversation.messages (snd p)) -> Message.id m' <> mid) ->
     Conversation.messages c = pre ++ m :: post ->
     (forall m', In m' pre -> Message.id m' <> mid) -> Message.id m = mid ->
     exists env' c',
       local_deleteMessage env mid now = Done (env', tt) /\
       conversations (getAll env') = l1 ++ (k, c') :: l2 /\
       Conversation.messages c' = pre ++ post /\
       Conversation.updatedAt c' = now /\
       Conversation.metadata c' = Conversation.metadata c).
Proof.
  split.
  - intros env mid now H. unfold local_deleteMessage.
    rewrite edit_first_conv_none; [reflexivity|].
    intros [k c] Hp. apply remove_message_none. intros m Hm.
    apply (H c m); [apply (in_map snd _ _ Hp)|exact Hm].
  - intros env mid now l1 k c l2 pre m post Hw Hs Hd Hl1 Hc Hpre Hm.
    do 2 eexists. split.
    + unfold local_deleteMessage. rewrite Hd.
      rewrite (edit_first_conv_split l1 k c l2 _ now (pre ++ post)).
      * rewrite saveAll_browser by assumption. reflexivity.
      * intros p Hp. apply remove_message_none. intros m' Hm'. exact (Hl1 p m' Hp Hm').
      * rewrite Hc. apply remove_message_split; assumption.
    + split; [reflexivity|]. split; [reflexivity|split; reflexivity].
Qed.

(** X2 *)
(** [deleteConversation] on the local adapter: it fails with the not-found
    error for an id that reads [undefined]; for the name of a member of
    [Object.prototype] with no stored conversation (['toString'], ...), the
    [delete] does nothing and, in a browser with a writable store, the
    document is written back as it was read; on a stored conversation, in
    a browser with a writable store, afterwards [getConversation] of that
    id finds no stored conversation (it answers absent unless the id names
    such a member), [getMessages] of it is the empty list, and every other
    id reads the same as before. *)
Theorem local_deleteConversation_effect :
  (forall env cid, local_getConversation env cid = None ->
     local_deleteConversation env cid = Failed (ConversationNotFound cid)) /\
  (forall env cid name,
     window_defined env = true -> setItem_succeeds env = true ->
     local_getConversation env cid = Some (InheritedMember name) ->
     exists env',
       local_deleteConversation env cid = Done (env', tt) /\ getAll env' = getAll env) /\
  (forall env cid c,
     window_defined env = true -> setItem_succeeds env = true ->
     local_getConversation env cid = Some (OwnProperty c) ->
     exists env',
       local_deleteConversation env cid = Done (env', tt) /\
       (forall c', local_getConversation env' cid <> Some (OwnProperty c')) /\
       (~ In cid object_prototype_members -> local_getConversation env' cid = None) /\
       local_getMessages env' cid = [] /\
       (forall k, k <> cid -> local_getConversation env' k = local_getConversation env k)).
Proof.
  split; [|split].
  - intros env cid H. unfold local_getConversation in H.
    unfold local_deleteConversation. rewrite H. reflexivity.
  - intros env cid name Hw Hs Hc. unfold local_getConversation in Hc.
    eexists. split.
    + unfold local_deleteConversation. rewrite Hc, saveAll_browser by assumption.
      reflexivity.
    + apply getAll_saved.
  - intros env cid c Hw Hs Hc. unfold local_getConversation in Hc.
    eexists. split; [|split; [|split; [|split]]].
    + unfold local_deleteConversation. rewrite Hc, saveAll_browser by assumption.
      reflexivity.
    + intros c'. unfold local_getConversation, obj_lookup. rewrite getAll_saved.
      cbn [conversations]. rewrite obj_get_delete_same.
      destruct (existsb (String.eqb cid) object_prototype_members); discriminate.
    + intros Hm. unfold local_getConversation. rewrite getAll_saved.
      apply obj_lookup_absent; [apply obj_get_delete_same|exact Hm].
    + unfold local_getMessages, obj_lookup. rewrite getAll_saved. cbn [conversations].
      rewrite obj_get_delete_same.
      destruct (existsb (String.eqb cid) object_prototype_members); reflexivity.
    + intros k Hk. unfold local_getConversation, obj_lookup. rewrite getAll_saved.
      cbn [conversations]. rewrite obj_get_delete_other by exact Hk. reflexivity.
Qed.

(** X3 *)
(** [updateConversation] on the local adapter: it fails with the not-found
    error for an id that reads [undefined]; for the name of a member of
    [Object.prototype] with no stored conversation, the updates are
    assigned onto that inherited member (onto [Object.prototype] itself for
    ['__proto__'], a change of the realm this model of the document does
    not follow) and, in a browser with a writable store, the document is
    written back as it was read; on a stored conversation, in a browser
    with a writable store, the conversation stays under the same key and
    becomes [Object.assign(conversation, updates)] with [updatedAt] set to
    the clock: an [updatedAt] in the updates is overwritten, an [id] in the
    updates replaces the conversation's [id] field (which then differs from
    its key), and every other id reads the same as before. *)
Theorem local_updateConversation_effect :
  (forall env cid u now, local_getConversation env cid = None ->
     local_updateConversation env cid u now = Failed (ConversationNotFound cid)) /\
  (forall env cid u now name,
     window_defined env = true -> setItem_succeeds env = true ->
     local_getConversation env cid = Some (InheritedMember name) ->
     exists env',
       local_updateConversation env cid u now = Done (env', tt) /\ getAll env' = getAll env) /\
  (forall env cid u now c,
     window_defined env = true -> setItem_succeeds env = true ->
     local_getConversation env cid = Some (OwnProperty c) ->
     exists env' c',
       local_updateConversation env cid u now = Done (env', tt) /\
       local_getConversation env' cid = Some (OwnProperty c') /\
       c' = set_updatedAt (assign_conversation c u) now /\
       Conversation.updatedAt c' = now /\
       Conversation.id c' = override (Conversation.id c) (updc_id u) /\
       (forall k, k <> cid -> local_getConversation env' k = local_getConversation env k)).
Proof.
  split; [|split].
  - intros env cid u now H. unfold local_getConversation in H.
    unfold local_updateConversation. rewrite H. reflexivity.
  - intros env cid u now name Hw Hs Hc. unfold local_getConversation in Hc.
    eexists. split.
    + unfold local_updateConversation. rewrite Hc, saveAll_browser by assumption.
      reflexivity.
    + apply getAll_saved.
  - intros env cid u now c Hw Hs Hc. unfold local_getConversation in Hc.
    do 2 eexists. split; [|split; [|split; [reflexivity|split; [reflexivity|split; [reflexivity|]]]]].
    + unfold local_updateConversation. rewrite Hc, saveAll_browser by assumption.
      reflexivity.
    + unfold local_getConversation, obj_lookup. rewrite getAll_saved.
      cbn [conversations]. rewrite obj_get_set_same. reflexivity.
    + intros k Hk. unfold local_getConversation, obj_lookup. rewrite getAll_saved.
      cbn [conversations]. rewrite obj_get_set_other by exact Hk. reflexivity.
Qed.

(** X4 *)
(** An item the adapter cannot parse, or no item, reads as the empty
    document: [listConversations] is empty, and in a browser with a
    writable store [createConversation] then writes a document holding only
    the new conversation, replacing whatever text was stored. *)
Theorem local_unreadable_item_replaced env title uuid t1 t2 :
  window_defined env = true -> setItem_succeeds env = true ->
  item env = None \/ item env = Some Unparseable ->
  local_listConversations env = [] /\
  exists env' c,
    local_createConversation env title uuid t1 t2 = Done (env', c) /\
    item env' = Some (Json (mkStorageData [(uuid, c)])).
Proof.
  intros Hw Hs Hi.
  assert (Hg : getAll env = empty_data).
  { unfold getAll. rewrite Hw. destruct Hi as [Hi|Hi]; rewrite Hi; reflexivity. }
  split.
  - unfold local_listConversations. rewrite Hg. reflexivity.
  - do 2 eexists. split.
    + unfold local_createConversation. rewrite saveAll_browser by assumption.
      reflexivity.
    + rewrite Hg. reflexivity.
Qed.

(** X5 *)
(** In a browser whose [localStorage.setItem] throws, every local operation
    that reaches its write rejects with 'Failed to save to localStorage':
    [createConversation] always, and [saveMessage], [updateConversation]
    and [deleteConversation] on a stored conversation. *)
Theorem local_write_failure env :
  window_defined env = true -> setItem_succeeds env = false ->
  (forall title uuid t1 t2,
     local_createConversation env title uuid t1 t2 = Failed LocalWriteFailed) /\
  (forall cid m now c, local_getConversation env cid = Some (OwnProperty c) ->
     local_saveMessage env cid m now = Failed LocalWriteFailed) /\
  (forall cid u now, local_getConversation env cid <> None ->
     local_updateConversation env cid u now = Failed LocalWriteFailed) /\
  (forall cid, local_getConversation env cid <> None ->
     local_deleteConversation env cid = Failed LocalWriteFailed).
Proof.
  intros Hw Hs.
  assert (Hsave : forall d, saveAll env d = Failed LocalWriteFailed).
  { intros d. unfold saveAll. rewrite Hw, Hs. reflexivity. }
  unfold local_getConversation.
  split; [|split; [|split]].
  - intros. unfold local_createConversation. rewrite Hsave. reflexivity.
  - intros cid m now c H. unfold local_saveMessage. rewrite H.
    rewrite Hsave. reflexivity.
  - intros cid u now H. unfold local_updateConversation.
    destruct (obj_lookup (conversations (getAll env)) cid) as [[c|n]|]; [| |congruence];
      rewrite Hsave; reflexivity.
  - intros cid H. unfold local_deleteConversation.
    destruct (obj_lookup (conversations (getAll env)) cid) as [[c|n]|]; [| |congruence];
      rewrite Hsave; reflexivity.
Qed.

(** X6 *)
(** Neither adapter looks at message ids in the same way: the local
    [saveMessage] appends a message even when one with the same id is
    already stored, so saving it twice leaves two copies; the remote
    [saveMessage] of a message whose id it has just saved fails on the
    primary key of [messages]. *)
Theorem saveMessage_duplicate_ids :
  (forall env cid m t1 t2 c,
     window_defined env = true -> setItem_succeeds env = true ->
     local_getConversation env cid = Some (OwnProperty c) ->
     exists env1 env2,
       local_saveMessage env cid m t1 = Done (env1, tt) /\
       local_saveMessage env1 cid m t2 = Done (env2, tt) /\
       local_getMessages env2 cid = Conversation.messages c ++ [m; m]) /\
  (forall db cid m t1 t2 r1 r2 r1' r2' db1,
     sb_saveMessage db cid m t1 r1 r2 = Done db1 ->
     sb_saveMessage db1 cid m t2 r1' r2' = Failed (BackendFailed "save message")).
Proof.
  split.
  - intros env cid m t1 t2 c Hw Hs Hc. unfold local_getConversation in Hc.
    do 2 eexists. split; [|split].
    + unfold local_saveMessage. rewrite Hc, saveAll_browser by assumption. reflexivity.
    + unfold local_saveMessage at 1, obj_lookup. rewrite getAll_saved. cbn [conversations].
      rewrite obj_get_set_same. rewrite saveAll_browser by reflexivity. reflexivity.
    + unfold local_getMessages, obj_lookup. rewrite getAll_saved. cbn [conversations].
      rewrite obj_get_set_same. cbn. rewrite <- app_assoc. reflexivity.
  - intros db cid m t1 t2 r1 r2 r1' r2' db1 H. unfold sb_saveMessage, insert_message_row in H.
    destruct r1; [|discriminate|discriminate].
    cbn [MessageRow.id MessageRow.conversation_id] in H.
    destruct (msg_row_exists db (Message.id m)); [discriminate|].
    destruct (negb (conv_row_exists db cid)); [discriminate|].
    assert (Hex : msg_row_exists (mkDatabase (conversation_rows db)
                    (message_rows db ++
                     [MessageRow.mk (Message.id m) cid (Message.role m) (Message.content m)
                        (Message.timestamp m)
                        (override empty_message_metadata (Message.metadata m))]))
                    (Message.id m) = true).
    { unfold msg_row_exists. cbn [message_rows].
      rewrite existsb_app. apply orb_true_iff. right. cbn. rewrite String.eqb_refl.
      reflexivity. }
    unfold sb_saveMessage, insert_message_row. cbn [MessageRow.id].
    destruct r1'; [|reflexivity|reflexivity].
    destruct r2; injection H as <-; [|rewrite Hex; reflexivity|rewrite Hex; reflexivity].
    unfold msg_row_exists in *. cbn [message_rows update_conversation_rows].
    cbn [message_rows] in Hex. rewrite Hex. reflexivity.
Qed.

(* ------------------------------------------------------------------ *)
(** ** The remote adapter *)

Lemma filter_all_true {A} (f : A -> bool) l :
  (forall x, In x l -> f x = true) -> filter f l = l.
Proof.
  induction l as [|x l IH]; intros H; cbn; [reflexivity|].
  rewrite (H x (or_introl eq_refl)). f_equal. apply IH. intros y Hy. apply H. right. exact Hy.
Qed.

Lemma NoDup_snoc {A} (l : list A) x : NoDup l -> ~ In x l -> NoDup (l ++ [x]).
Proof.
  induction l as [|y l IH]; cbn; intros Hnd Hx.
  - constructor; [intros []|constructor].
  - inversion Hnd as [|y' l' Hy Hnd' Heq]; subst. constructor.
    + intros Hin. apply in_app_or in Hin as [Hin|[Hin|[]]]; [contradiction|].
      apply Hx. left. symmetry. exact Hin.
    + apply IH; [exact Hnd'|]. intros Hin. apply Hx. right. exact Hin.
Qed.

Lemma existsb_eqb_in {A} (f : A -> string) l x :
  existsb (fun r => String.eqb (f r) x) l = true <-> In x (map f l).
Proof.
  rewrite existsb_exists. split.
  - intros [r [Hin Heq]]. apply String.eqb_eq in Heq. subst x. apply in_map. exact Hin.
  - intros Hin. apply in_map_iff in Hin as [r [<- Hin]].
    exists r. split; [exact Hin|apply String.eqb_refl].
Qed.

Lemma map_id_update_rows cid f rows :
  (forall r, ConversationRow.id (f r) = ConversationRow.id r) ->
  map ConversationRow.id
    (map (fun r => if String.eqb (ConversationRow.id r) cid then f r else r) rows)
  = map ConversationRow.id rows.
Proof.
  intros Hf. rewrite map_map. apply map_ext. intros r.
  destruct (String.eqb (ConversationRow.id r) cid); [apply Hf|reflexivity].
Qed.

Lemma conv_row_exists_update db cid f x :
  (forall r, ConversationRow.id (f r) = ConversationRow.id r) ->
  conv_row_exists (update_conversation_rows db cid f) x = conv_row_exists db x.
Proof.
  intros Hf. unfold conv_row_exists. cbn [conversation_rows update_conversation_rows].
  destruct (existsb (fun r => String.eqb (ConversationRow.id r) x) (conversation_rows db)) eqn:E.
  - apply existsb_eqb_in. rewrite map_id_update_rows by exact Hf.
    apply existsb_eqb_in. exact E.
  - apply not_true_iff_false. rewrite existsb_eqb_in, map_id_update_rows by exact Hf.
    rewrite <- existsb_eqb_in. rewrite E. discriminate.
Qed.

(** X7 *)
(** The remote [deleteConversation] never reports a missing conversation.
    When the [DELETE] reaches the rows, it removes the rows with that id,
    so [getConversation] of it then answers absent, and keeps every message
    row of another conversation; for an id with no row it succeeds and
    changes nothing; when the database satisfies its foreign key, the
    cascade leaves that conversation with no messages.  When row-level
    security gives the [DELETE] no row (the README's schema grants no
    [DELETE]), it succeeds and changes nothing; a backend error (such as an
    id the [UUID] column does not accept) is rethrown. *)
Theorem sb_deleteConversation_effect :
  (forall db cid,
     exists db',
       sb_deleteConversation db cid Applied = Done db' /\
       sb_getConversation db' cid = None /\
       conversation_rows db' =
         filter (fun r => negb (String.eqb (ConversationRow.id r) cid)) (conversation_rows db) /\
       (forall m, In m (message_rows db) -> MessageRow.conversation_id m <> cid ->
          In m (message_rows db')) /\
       (conv_row_exists db cid = false -> db' = db)) /\
  (forall db cid db', fk_ok db -> sb_deleteConversation db cid Applied = Done db' ->
     sb_getMessages db' cid = []) /\
  (forall db cid, sb_deleteConversation db cid Hidden = Done db) /\
  (forall db cid,
     sb_deleteConversation db cid Errored = Failed (BackendFailed "delete conversation")).
Proof.
  split; [|split; [|split]].
  - intros db cid. eexists. split; [reflexivity|]. split; [|split; [reflexivity|split]].
    + unfold sb_getConversation. cbn [conversation_rows].
      rewrite find_none_of_existsb; [reflexivity|].
      apply not_true_iff_false. intros Hex. apply existsb_exists in Hex as [r [Hin Heq]].
      apply filter_In in Hin as [_ Hr]. rewrite Heq in Hr. discriminate.
    + intros m Hm Hne. cbn [message_rows]. apply filter_In. split; [exact Hm|].
      apply negb_true_iff, not_true_iff_false. intros Hex.
      apply existsb_exists in Hex as [r [Hin Heq]].
      apply filter_In in Hin as [_ Hr]. apply String.eqb_eq in Hr, Heq. congruence.
    + intros Habs. unfold conv_row_exists in Habs.
      assert (Hnone : forall r, In r (conversation_rows db) ->
                        String.eqb (ConversationRow.id r) cid = false).
      { intros r Hr. apply not_true_iff_false. intros Heq. apply diff_false_true.
        rewrite <- Habs. apply existsb_exists. exists r. split; assumption. }
      destruct db as [rows msgs]. cbn in *. f_equal.
      * apply filter_all_true. intros r Hr. rewrite (Hnone r Hr). reflexivity.
      * rewrite (filter_all_false _ rows Hnone). cbn.
        apply filter_all_true. intros m _. reflexivity.
  - intros db cid db' Hfk H. cbn in H. injection H as <-. unfold sb_getMessages.
    cbn [message_rows]. rewrite filter_all_false; [reflexivity|].
    intros m Hm. apply filter_In in Hm as [Hm Hkeep].
    destruct (String.eqb (MessageRow.conversation_id m) cid) eqn:E; [|reflexivity].
    exfalso. apply String.eqb_eq in E.
    specialize (Hfk m Hm). unfold conv_row_exists in Hfk.
    apply existsb_exists in Hfk as [r [Hr Heq]].
    apply negb_true_iff in Hkeep. apply diff_false_true. rewrite <- Hkeep. apply existsb_exists.
    exists r. split; [|exact Heq]. apply filter_In. split; [exact Hr|].
    apply String.eqb_eq in Heq. rewrite Heq, E. apply String.eqb_refl.
  - reflexivity.
  - reflexivity.
Qed.

(** X8 *)
(** The remote [deleteMessage] never reports a missing message.  When the
    [DELETE] reaches the rows, afterwards no message row has that id, every
    other message row is kept, and the conversation rows are untouched
    (their [updated_at] is not bumped); for an id with no row it succeeds
    and changes nothing.  When row-level security gives the [DELETE] no
    row (the README's schema grants no [DELETE]), it succeeds and changes
    nothing; a backend error (such as an id the [UUID] column does not
    accept) is rethrown. *)
Theorem sb_deleteMessage_effect db mid :
  (exists db',
     sb_deleteMessage db mid Applied = Done db' /\
     msg_row_exists db' mid = false /\
     conversation_rows db' = conversation_rows db /\
     (forall m, In m (message_rows db) -> MessageRow.id m <> mid -> In m (message_rows db')) /\
     (msg_row_exists db mid = false -> db' = db)) /\
  sb_deleteMessage db mid Hidden = Done db /\
  sb_deleteMessage db mid Errored = Failed (BackendFailed "delete message").
Proof.
  split; [|split; reflexivity].
  eexists. split; [reflexivity|]. split; [|split; [reflexivity|split]].
  - unfold msg_row_exists. cbn [message_rows]. apply not_true_iff_false. intros Hex.
    apply existsb_exists in Hex as [m [Hin Heq]]. apply filter_In in Hin as [_ Hm].
    rewrite Heq in Hm. discriminate.
  - intros m Hm Hne. cbn [message_rows]. apply filter_In. split; [exact Hm|].
    apply negb_true_iff, String.eqb_neq. exact Hne.
  - intros Habs. destruct db as [rows msgs]. unfold msg_row_exists in Habs. cbn in *.
    f_equal. apply filter_all_true. intros m Hm. apply negb_true_iff, not_true_iff_false.
    intros Heq. apply diff_false_true. rewrite <- Habs.
    apply existsb_exists. exists m. split; assumption.
Qed.

(** X9 *)
(** The remote [updateConversation] writes only [title], [metadata] and
    [updated_at].  When the [UPDATE] reaches the rows, the [id], [user_id]
    and [created_at] of every row and all message rows stay as they were
    (an [id], [messages], [createdAt] or [updatedAt] in the updates is
    ignored), the rows with that id get [updated_at = now], the other rows
    are kept, and for an id with no row it succeeds and changes nothing.
    When row-level security gives the [UPDATE] no row (the README's schema
    grants no [UPDATE]), it succeeds and changes nothing; a backend error
    (such as an id the [UUID] column does not accept) is rethrown. *)
Theorem sb_updateConversation_effect db cid u now :
  (exists db',
     sb_updateConversation db cid u now Applied = Done db' /\
     message_rows db' = message_rows db /\
     map ConversationRow.id (conversation_rows db') = map ConversationRow.id (conversation_rows db) /\
     map ConversationRow.user_id (conversation_rows db') =
       map ConversationRow.user_id (conversation_rows db) /\
     map ConversationRow.created_at (conversation_rows db') =
       map ConversationRow.created_at (conversation_rows db) /\
     (forall r, In r (conversation_rows db') -> ConversationRow.id r = cid ->
        ConversationRow.updated_at r = now) /\
     (forall r, In r (conversation_rows db) -> ConversationRow.id r <> cid ->
        In r (conversation_rows db')) /\
     (conv_row_exists db cid = false -> db' = db)) /\
  sb_updateConversation db cid u now Hidden = Done db /\
  sb_updateConversation db cid u now Errored = Failed (BackendFailed "update conversation").
Proof.
  split; [|split; reflexivity].
  eexists. split; [reflexivity|]. cbn [conversation_rows message_rows update_conversation_rows].
  split; [reflexivity|].
  split; [|split; [|split; [|split; [|split]]]].
  - apply map_id_update_rows. intros r. reflexivity.
  - rewrite map_map. apply map_ext. intros r.
    destruct (String.eqb (ConversationRow.id r) cid); reflexivity.
  - rewrite map_map. apply map_ext. intros r.
    destruct (String.eqb (ConversationRow.id r) cid); reflexivity.
  - intros r Hr Hid. apply in_map_iff in Hr as [r0 [<- Hr0]].
    destruct (String.eqb (ConversationRow.id r0) cid) eqn:E; [reflexivity|].
    rewrite Hid, String.eqb_refl in E. discriminate.
  - intros r Hr Hne. apply in_map_iff. exists r. split; [|exact Hr].
    replace (String.eqb (ConversationRow.id r) cid) with false
      by (symmetry; apply String.eqb_neq; exact Hne). reflexivity.
  - intros Habs. destruct db as [rows msgs]. unfold conv_row_exists in Habs. cbn in *.
    unfold update_conversation_rows. cbn. f_equal.
    rewrite <- (map_id rows) at 2. apply map_ext_in. intros r Hr.
    destruct (String.eqb (ConversationRow.id r) cid) eqn:E; [|reflexivity].
    exfalso. apply diff_false_true. rewrite <- Habs.
    apply existsb_exists. exists r. split; assumption.
Qed.

Lemma conv_row_exists_in db x :
  conv_row_exists db x = true <-> In x (map ConversationRow.id (conversation_rows db)).
Proof. apply existsb_eqb_in. Qed.

Lemma msg_row_exists_in db x :
  msg_row_exists db x = true <-> In x (map MessageRow.id (message_rows db)).
Proof. apply existsb_eqb_in. Qed.

Lemma NoDup_map_map_eq {A B} (f : A -> B) (g : A -> A) l :
  (forall x, f (g x) = f x) -> NoDup (map f l) -> NoDup (map f (map g l)).
Proof.
  intros Hg Hnd. rewrite map_map. erewrite map_ext; [exact Hnd|]. exact Hg.
Qed.

Lemma update_keeps_schema db cid f :
  (forall r, ConversationRow.id (f r) = ConversationRow.id r) ->
  fk_ok db -> pk_ok db ->
  fk_ok (update_conversation_rows db cid f) /\ pk_ok (update_conversation_rows db cid f).
Proof.
  intros Hf Hfk [Hpc Hpm]. split; [|split].
  - intros r Hr. rewrite conv_row_exists_update by exact Hf. exact (Hfk r Hr).
  - cbn. apply NoDup_map_map_eq; [|exact Hpc].
    intros r. destruct (String.eqb (ConversationRow.id r) cid); [apply Hf|reflexivity].
  - exact Hpm.
Qed.

Lemma run_write_cases op reply db db1 db' :
  run_write op reply db db1 = Done db' -> db' = db1 \/ db' = db.
Proof.
  destruct reply; cbn; intros H; [left|right|discriminate]; injection H as <-; reflexivity.
Qed.

(** X10 *)
(** Every remote operation, whatever the backend answers to its
    statements, keeps the two schema invariants of the database: each
    message row references an existing conversation row (the foreign key,
    kept by the checked insert and the cascade), and no two rows of a table
    share an id (the primary keys). *)
Theorem remote_ops_keep_schema db :
  fk_ok db -> pk_ok db ->
  (forall cid m now r1 r2 db', sb_saveMessage db cid m now r1 r2 = Done db' ->
     fk_ok db' /\ pk_ok db') /\
  (forall mid r db', sb_deleteMessage db mid r = Done db' -> fk_ok db' /\ pk_ok db') /\
  (forall mid u r db', sb_updateMessage db mid u r = Done db' -> fk_ok db' /\ pk_ok db') /\
  (forall userId title uuid now r db' c,
     sb_createConversation userId db title uuid now r = Done (db', c) ->
     fk_ok db' /\ pk_ok db') /\
  (forall cid u now r db', sb_updateConversation db cid u now r = Done db' ->
     fk_ok db' /\ pk_ok db') /\
  (forall cid r db', sb_deleteConversation db cid r = Done db' -> fk_ok db' /\ pk_ok db') /\
  (forall userId r db', sb_clearAll userId db r = Done db' -> fk_ok db' /\ pk_ok db').
Proof.
  intros Hfk Hpk. pose proof Hpk as [Hpc Hpm].
  split; [|split; [|split; [|split; [|split; [|split]]]]].
  - (* saveMessage *)
    intros cid m now r1 r2 db' H. unfold sb_saveMessage, insert_message_row in H.
    destruct r1; [|discriminate|discriminate].
    cbn [MessageRow.id MessageRow.conversation_id] in H.
    destruct (msg_row_exists db (Message.id m)) eqn:Em; [discriminate|].
    destruct (conv_row_exists db cid) eqn:Ec; [|discriminate]. cbn [negb] in H.
    set (row := MessageRow.mk (Message.id m) cid (Message.role m) (Message.content m)
                  (Message.timestamp m)
                  (override empty_message_metadata (Message.metadata m))) in H.
    set (db1 := mkDatabase (conversation_rows db) (message_rows db ++ [row])) in H.
    assert (H1 : fk_ok db1 /\ pk_ok db1).
    { split; [|split].
      - intros r Hr. cbn in Hr. apply in_app_or in Hr as [Hr|[<-|[]]]; [|exact Ec].
        exact (Hfk r Hr).
      - exact Hpc.
      - cbn. rewrite map_app. apply NoDup_snoc; [exact Hpm|].
        intros Hin. apply (msg_row_exists_in db) in Hin. cbn in Hin. congruence. }
    destruct H1 as [Hfk1 Hpk1].
    destruct r2; injection H as <-; [|split; assumption..].
    apply update_keeps_schema; [reflexivity|assumption|assumption].
  - (* deleteMessage *)
    intros mid r db' H. apply run_write_cases in H as [->| ->]; [|split; assumption].
    split; [|split].
    + intros m Hm. apply filter_In in Hm as [Hm _]. exact (Hfk m Hm).
    + exact Hpc.
    + apply NoDup_map_filter. exact Hpm.
  - (* updateMessage *)
    intros mid u r db' H. apply run_write_cases in H as [->| ->]; [|split; assumption].
    split; [|split].
    + intros m Hm. cbn in Hm. apply in_map_iff in Hm as [r0 [<- Hr0]].
      specialize (Hfk r0 Hr0). unfold conv_row_exists in *. cbn.
      destruct (String.eqb (MessageRow.id r0) mid); exact Hfk.
    + exact Hpc.
    + cbn. apply NoDup_map_map_eq; [|exact Hpm].
      intros m. destruct (String.eqb (MessageRow.id m) mid); reflexivity.
  - (* createConversation *)
    intros userId title uuid now r db' c H. unfold sb_createConversation, insert_conversation_row in H.
    destruct r; [|discriminate|discriminate].
    cbn [ConversationRow.id] in H.
    destruct (conv_row_exists db uuid) eqn:Ec; [discriminate|].
    injection H as <- _. split; [|split].
    + intros m Hm. cbn in Hm. specialize (Hfk m Hm).
      unfold conv_row_exists in *. cbn. rewrite existsb_app, Hfk. reflexivity.
    + cbn. rewrite map_app. apply NoDup_snoc; [exact Hpc|].
      cbn. intros Hin. apply (conv_row_exists_in db) in Hin. congruence.
    + exact Hpm.
  - (* updateConversation *)
    intros cid u now r db' H. apply run_write_cases in H as [->| ->]; [|split; assumption].
    apply update_keeps_schema; [reflexivity|assumption|assumption].
  - (* deleteConversation *)
    intros cid r db' H. apply run_write_cases in H as [->| ->]; [|split; assumption].
    split; [|split].
    + intros m Hm. cbn in Hm. apply filter_In in Hm as [Hm Hkeep].
      specialize (Hfk m Hm). apply existsb_exists in Hfk as [row [Hr Heq]].
      unfold conv_row_exists. cbn. apply existsb_exists. exists row. split; [|exact Heq].
      apply filter_In. split; [exact Hr|].
      destruct (String.eqb (ConversationRow.id row) cid) eqn:E; [|reflexivity].
      exfalso. apply negb_true_iff in Hkeep. apply diff_false_true. rewrite <- Hkeep.
      apply existsb_exists. exists row. split; [|exact Heq]. apply filter_In. split; assumption.
    + apply NoDup_map_filter. exact Hpc.
    + apply NoDup_map_filter. exact Hpm.
  - (* clearAll *)
    intros userId r db' H. unfold sb_clearAll in H.
    destruct (bound_user userId) as [u|]; [|discriminate].
    apply run_write_cases in H as [->| ->]; [|split; assumption].
    split; [|split].
    + intros m Hm. cbn in Hm. apply filter_In in Hm as [_ Hkeep]. exact Hkeep.
    + apply NoDup_map_filter. exact Hpc.
    + apply NoDup_map_filter. exact Hpm.
Qed.

(* ------------------------------------------------------------------ *)
(** ** [handleApiError] and [getUserFriendlyError] *)



Lemma friendly_of_message_table m :
  exists key s, assoc_lookup ERROR_MESSAGES key = Some s /\ friendly_of_message m = Text s.
Proof.
  unfold friendly_of_message, message_patterns.
  destruct (includes m "network" || includes m "fetch");
    [exists "NETWORK_ERROR"; eexists; split; reflexivity|].
  destruct (includes m "timeout");
    [exists "TIMEOUT_ERROR"; eexists; split; reflexivity|].
  destruct (includes m "rate limit" || includes m "429");
    [exists "LLM_RATE_LIMIT"; eexists; split; reflexivity|].
  destruct (includes m "auth");
    [exists "AUTH_REQUIRED"; eexists; split; reflexivity|].
  exists "UNKNOWN_ERROR"; eexists; split; reflexivity.
Qed.

(** X13 *)
(** [getUserFriendlyError] never shows the text of a plain [Error], of a
    thrown non-[Error] value, or of an [AppError] without a (non-empty)
    code: the result is always one of the [ERROR_MESSAGES] strings. *)
Theorem getUserFriendlyError_generic :
  (forall e, exists key s,
     assoc_lookup ERROR_MESSAGES key = Some s /\ getUserFriendlyError (PlainError e) = Text s) /\
  (forall v, exists key s,
     assoc_lookup ERROR_MESSAGES key = Some s /\ getUserFriendlyError (NonError v) = Text s) /\
  (forall a, app_code a = None \/ app_code a = Some "" ->
     exists key s,
       assoc_lookup ERROR_MESSAGES key = Some s /\ getUserFriendlyError (AppErrorValue a) = Text s).
Proof.
  split; [|split].
  - intros e. apply friendly_of_message_table.
  - intros v. exists "UNKNOWN_ERROR". eexists. split; reflexivity.
  - intros a Hc. cbn.
    destruct Hc as [Hc|Hc]; rewrite Hc; apply friendly_of_message_table.
Qed.

(** X14 *)
(** Of the [AppError] classes, only [LLMError] and [ToolExecutionError] get
    a message of [ERROR_MESSAGES] from [getUserFriendlyError]; the codes of
    [ValidationError], [AuthenticationError], [AuthorizationError],
    [NotFoundError] and [RateLimitError] are not keys of [ERROR_MESSAGES],
    so for them the error's own message is returned. *)
Theorem getUserFriendlyError_classes :
  forall (message : string) (om : option string) (details : option JsonValue),
    getUserFriendlyError (AppErrorValue (new_LLMError message details)) =
      Text (error_message "LLM_ERROR") /\
    getUserFriendlyError (AppErrorValue (new_ToolExecutionError message details)) =
      Text (error_message "TOOL_ERROR") /\
    getUserFriendlyError (AppErrorValue (new_ValidationError message details)) =
      Text message /\
    getUserFriendlyError (AppErrorValue (new_AuthenticationError om)) =
      Text (override "Authentication required" om) /\
    getUserFriendlyError (AppErrorValue (new_AuthorizationError om)) =
      Text (override "Permission denied" om) /\
    getUserFriendlyError (AppErrorValue (new_NotFoundError om)) =
      Text (override "Resource not found" om) /\
    getUserFriendlyError (AppErrorValue (new_RateLimitError om)) =
      Text (override "Too many requests. Please try again later." om).
Proof. intros. repeat split. Qed.

Lemma ERROR_MESSAGES_get_inherited k member :
  ERROR_MESSAGES_get k = Inherited member -> member = k /\ In k object_prototype_members.
Proof.
  unfold ERROR_MESSAGES_get. destruct (assoc_lookup ERROR_MESSAGES k); [discriminate|].
  destruct (existsb (String.eqb k) object_prototype_members) eqn:E; [|discriminate].
  intros H. injection H as <-. split; [reflexivity|].
  apply existsb_exists in E as [x [Hx Heq]]. apply String.eqb_eq in Heq. subst x. exact Hx.
Qed.

(** X15 *)
(** [getUserFriendlyError] returns something other than a string exactly
    for an [AppError] whose code names a property every object inherits
    from [Object.prototype] ('toString', 'constructor', '__proto__', ...):
    [ERROR_MESSAGES[code]] is then that inherited member, which is truthy,
    and it is returned. *)
Theorem getUserFriendlyError_inherited_member e member :
  getUserFriendlyError e = Member member <->
  exists a, e = AppErrorValue a /\ app_code a = Some member /\
            In member object_prototype_members.
Proof.
  split.
  - destruct e as [a|e|v]; cbn.
    + destruct (app_code a) as [[|c s]|] eqn:Ec;
        try (unfold friendly_of_message; destruct (message_patterns (app_message a));
             discriminate).
      destruct (ERROR_MESSAGES_get (String c s)) as [[|c' s']|mb|] eqn:Eg;
        try discriminate.
      intros H. injection H as <-.
      apply ERROR_MESSAGES_get_inherited in Eg as [-> Hin].
      exists a. split; [reflexivity|split; [exact Ec|exact Hin]].
    + unfold friendly_of_message. destruct (message_patterns (message e)); discriminate.
    + discriminate.
  - intros [a [-> [Ec Hin]]]. cbn. rewrite Ec.
    repeat (destruct Hin as [<-|Hin]; [reflexivity|]). destruct Hin.
Qed.

(* ------------------------------------------------------------------ *)
(** ** [isRetryableError] *)

Lemma toLowerCase_app a b : toLowerCase (a ++ b)%string = (toLowerCase a ++ toLowerCase b)%string.
Proof. induction a as [|c a IH]; cbn; [reflexivity|]. rewrite IH. reflexivity. Qed.

Lemma prefix_app p s : String.prefix p (p ++ s)%string = true.
Proof.
  induction p as [|c p IH]; cbn; [destruct s; reflexivity|].
  destruct (ascii_dec c c) as [_|n]; [exact IH|contradiction].
Qed.

Lemma includes_prefix s p : String.prefix p s = true -> includes s p = true.
Proof.
  intros H. destruct s as [|c s]; cbn [includes]; rewrite H; reflexivity.
Qed.

Lemma prefix_split p s : String.prefix p s = true -> exists b, s = (p ++ b)%string.
Proof.
  revert s. induction p as [|c p IH]; intros s H; cbn.
  - exists s. reflexivity.
  - destruct s as [|c' s]; cbn in H; [discriminate|].
    destruct (ascii_dec c c') as [<-|]; [|discriminate].
    destruct (IH s H) as [b ->]. exists b. reflexivity.
Qed.

Lemma includes_spec s p : includes s p = true <-> exists a b, s = (a ++ p ++ b)%string.
Proof.
  split.
  - induction s as [|c s IH]; cbn [includes].
    + destruct (String.prefix p "") eqn:E; [|discriminate].
      intros _. destruct (prefix_split _ _ E) as [b Hb].
      exists "", b. exact Hb.
    + destruct (String.prefix p (String c s)) eqn:E.
      * intros _. destruct (prefix_split _ _ E) as [b Hb]. exists "", b. exact Hb.
      * intros H. destruct (IH H) as [a [b ->]]. exists (String c a), b. reflexivity.
  - intros [a [b ->]]. induction a as [|c a IH]; cbn [includes append].
    + apply includes_prefix, prefix_app.
    + destruct (String.prefix p (String c (a ++ p ++ b)%string)); [reflexivity|exact IH].
Qed.

Lemma string_append_assoc a b c : ((a ++ b) ++ c)%string = (a ++ b ++ c)%string.
Proof. induction a as [|x a IH]; cbn; [reflexivity|]. rewrite IH. reflexivity. Qed.

Lemma includes_wrap s pat p q :
  includes s pat = true -> includes (p ++ s ++ q)%string pat = true.
Proof.
  rewrite !includes_spec. intros [a [b ->]].
  exists (p ++ a)%string, (b ++ q)%string. rewrite !string_append_assoc. reflexivity.
Qed.

Lemma orb_mono a b a' b' :
  (a = true -> a' = true) -> (b = true -> b' = true) -> a || b = true -> a' || b' = true.
Proof. intros Ha Hb H. apply orb_true_iff in H as [H|H]; rewrite ?(Ha H), ?(Hb H), ?orb_true_r; reflexivity. Qed.

(** X16 *)
(** Retryability survives wrapping: an [Error] whose message is retryable
    stays retryable when its message is embedded in a longer one (as in
    `Failed to save message: ${error.message}`), since the patterns are
    looked up as substrings of the lower-cased message; a thrown value that
    is not an [Error] is never retryable. *)
Theorem isRetryableError_wrapping :
  (forall s p q,
     isRetryableError (ThrownError (mkJsError s)) = true ->
     isRetryableError (ThrownError (mkJsError (p ++ s ++ q)%string)) = true) /\
  (forall v, isRetryableError (ThrownOther v) = false).
Proof.
  split; [|reflexivity].
  intros s p q. unfold isRetryableError. cbn [message].
  rewrite !toLowerCase_app.
  repeat match goal with
  | |- ?a || ?b = true -> ?a' || ?b' = true => apply orb_mono
  | |- includes _ _ = true -> includes _ _ = true => apply includes_wrap
  end.
Qed.

Lemma includes_lower s pat :
  includes s pat = true -> toLowerCase pat = pat -> includes (toLowerCase s) pat = true.
Proof.
  rewrite !includes_spec. intros [a [b ->]] Hp.
  exists (toLowerCase a), (toLowerCase b). rewrite !toLowerCase_app, Hp. reflexivity.
Qed.

(** X17 *)
(** When [getUserFriendlyError] classifies a plain [Error] as a network,
    timeout or rate-limit problem, [isRetryableError] (the default retry
    predicate of [withRetry]) also deems it retryable.  The converse fails:
    [getUserFriendlyError] matches its patterns case-sensitively, so
    'Network error' is retryable but gets the generic message. *)
Theorem transient_friendly_messages_are_retryable :
  (forall s,
     In (getUserFriendlyError (PlainError (mkJsError s)))
       [Text (error_message "NETWORK_ERROR"); Text (error_message "TIMEOUT_ERROR");
        Text (error_message "LLM_RATE_LIMIT")] ->
     isRetryableError (ThrownError (mkJsError s)) = true) /\
  (isRetryableError (ThrownError (mkJsError "Network error")) = true /\
   getUserFriendlyError (PlainError (mkJsError "Network error")) =
     Text (error_message "UNKNOWN_ERROR")).
Proof.
  split; [|split; reflexivity].
  intros s. cbn [getUserFriendlyError message]. unfold friendly_of_message, message_patterns.
  unfold isRetryableError. cbn [message].
  destruct (includes s "network") eqn:E1.
  { intros _. rewrite (includes_lower _ _ E1 eq_refl). reflexivity. }
  destruct (includes s "fetch") eqn:E2.
  { intros _. rewrite (includes_lower _ _ E2 eq_refl), orb_true_r. reflexivity. }
  cbn [orb].
  destruct (includes s "timeout") eqn:E3.
  { intros _. rewrite (includes_lower _ _ E3 eq_refl), !orb_true_r. reflexivity. }
  destruct (includes s "rate limit") eqn:E4.
  { intros _. rewrite (includes_lower _ _ E4 eq_refl), !orb_true_r. reflexivity. }
  destruct (includes s "429") eqn:E5.
  { intros _. rewrite (includes_lower _ _ E5 eq_refl), !orb_true_r. reflexivity. }
  cbn [orb]. destruct (includes s "auth"); cbn; intros H;
    repeat (destruct H as [H|H]; [discriminate H|]); destruct H.
Qed.

(** ** Circuit breaker between calls *)

Lemma execute_enter_state b t b1 :
  state b <> HalfOpen -> execute_enter b t = Some b1 ->
  (state b1 = Closed /\ b1 = b) \/ (state b = Open /\ b1 = set_state b HalfOpen).
Proof.
  unfold execute_enter. intros Hs He.
  destruct (state b) eqn:E; [| |congruence].
  - injection He as <-. left. split; [exact E|reflexivity].
  - destruct (t - lastFailureTime b >? timeout b); [|discriminate].
    injection He as <-. right. split; reflexivity.
Qed.

(** X18 *)
(** Between two awaited calls of [execute] (and after [reset]) a circuit
    breaker is never half-open: the half-open state only lasts while the
    trial call runs, which closes the breaker if it succeeds and opens it
    again if it fails.  The failure count is never negative, and an open
    breaker has counted at least [threshold] failures. *)
Theorem breaker_never_half_open_between_calls b :
  reachable b ->
  state b <> HalfOpen /\ 0 <= failures b /\
  (state b = Open -> failures b >= threshold b).
Proof.
  intros Hr. pose proof (reachable_inv b Hr) as Hinv.
  induction Hr as [th to|b t0 res t1 Hr IH|b Hr IH].
  - cbn. split; [discriminate|]. split; [lia|discriminate].
  - destruct (IH (reachable_inv b Hr)) as [Hs [Hf Ho]].
    split; [|split].
    + unfold execute. destruct (execute_enter b t0) as [b1|] eqn:He; cbn; [|exact Hs].
      destruct (execute_enter_state b t0 b1 Hs He) as [[Hc ->]|[Hop ->]].
      * destruct res; cbn; [discriminate|].
        destruct (failures b + 1 >=? threshold b); [discriminate|]. rewrite Hc. discriminate.
      * destruct res; cbn; [discriminate|].
        specialize (Ho Hop).
        assert (Hge : (failures b + 1 >=? threshold b) = true) by (apply Z.geb_le; lia).
        rewrite Hge. discriminate.
    + unfold execute. destruct (execute_enter b t0) as [b1|] eqn:He; cbn; [|exact Hf].
      destruct (execute_enter_state b t0 b1 Hs He) as [[_ ->]|[_ ->]];
        destruct res; cbn; lia.
    + unfold breaker_inv in Hinv. destruct Hinv as [Hc|Hge]; [|intros _; exact Hge].
      rewrite Hc. discriminate.
  - cbn. split; [discriminate|]. split; [lia|discriminate].
Qed.

(** ** Bounds of a [withRetry] run *)

Lemma spaced_trace_counts opts a k :
  invocations (spaced_trace opts a k) = k /\
  List.length (sleeps (spaced_trace opts a k)) = (k - 1)%nat /\
  Forall (fun d => d <= maxDelay opts) (sleeps (spaced_trace opts a k)).
Proof.
  revert a. induction k as [|k IH]; intros a; [cbn; auto|].
  destruct k as [|k']; [cbn; auto|].
  destruct (IH (S a)) as [H1 [H2 H3]].
  change (spaced_trace opts a (S (S k')))
    with (Invoke a :: Sleep (backoff_delay opts a) :: spaced_trace opts (S a) (S k')).
  cbn [invocations sleeps List.length]. split; [lia|]. split; [lia|].
  constructor; [unfold backoff_delay; lia|exact H3].
Qed.

(** X19 *)
(** Whatever [fn] does, a run of [withRetry] invokes it at most
    [maxRetries] times (never when [maxRetries <= 0]), waits exactly once
    between two consecutive invocations and never after the last one, and
    no wait is longer than [maxDelay].  This is for an integer
    [maxRetries], as the model of [RetryOptions] has it; a fractional one
    such as [2.5] makes [ceil(maxRetries)] attempts. *)
Theorem withRetry_bounds opts fn :
  let '(evs, _) := withRetry_opts opts fn in
  (invocations evs <= Z.to_nat (maxRetries opts))%nat /\
  List.length (sleeps evs) = (invocations evs - 1)%nat /\
  Forall (fun d => d <= maxDelay opts) (sleeps evs).
Proof.
  pose proof (withRetry_opts_shape opts fn) as Hshape.
  assert (Hinv : let '(evs, _) := withRetry_opts opts fn in
                 (invocations evs <= Z.to_nat (maxRetries opts))%nat).
  { destruct (Z_le_gt_dec (maxRetries opts) 0) as [Hle|Hgt].
    - rewrite (withRetry_opts_nonpos opts fn Hle). cbn. lia.
    - unfold withRetry_opts.
      pose proof (retry_loop_shape opts fn (Z.to_nat (maxRetries opts)) 0 None
                    ltac:(lia) ltac:(lia)) as H.
      destruct (retry_loop opts fn (Z.to_nat (maxRetries opts)) 0 None) as [evs r].
      apply (proj1 H). }
  destruct (withRetry_opts opts fn) as [evs r].
  split; [exact Hinv|].
  destruct (spaced_trace_counts opts 0 (invocations evs)) as [_ [H2 H3]].
  rewrite <- Hshape in H2, H3. split; assumption.
Qed.

(* ================================================================== *)
(** ** Instances of the further properties *)

Lemma local_deleteMessage_effect_witness :
  local_deleteMessage env_one_assistant_message unknown_message_id 200 =
    Failed (MessageNotFound unknown_message_id) /\
  (exists env' c',
     local_deleteMessage env_one_assistant_message assistant_message_id 200 = Done (env', tt) /\
     conversations (getAll env') = [("c1"%string, c')] /\
     Conversation.messages c' = [] /\ Conversation.updatedAt c' = 200 /\
     Conversation.metadata c' = Some (mkConversationMetadata (Some 42) (Some 1) None)).
Proof.
  destruct local_deleteMessage_effect as [H1 H2]. split.
  - apply H1. intros c m Hc Hm. vm_compute in Hc. destruct Hc as [<-|[]].
    vm_compute in Hm. destruct Hm as [<-|[]]. discriminate.
  - apply (H2 env_one_assistant_message assistant_message_id 200 [] "c1"
             (Conversation.mk "c1" (Some "Trip Planning") [kyoto_assistant_message] 100 102
                (Some (mkConversationMetadata (Some 42) (Some 1) None)))
             [] [] kyoto_assistant_message []).
    all: first [reflexivity | cbn; intros; contradiction].
Defined.

Lemma local_deleteConversation_effect_witness :
  local_deleteConversation tied_env "z" = Failed (ConversationNotFound "z") /\
  (exists env',
     local_deleteConversation tied_env "toString" = Done (env', tt) /\
     getAll env' = getAll tied_env) /\
  (exists env',
     local_deleteConversation tied_env "a" = Done (env', tt) /\
     (forall c', local_getConversation env' "a" <> Some (OwnProperty c')) /\
     (~ In "a"%string object_prototype_members -> local_getConversation env' "a" = None) /\
     local_getMessages env' "a" = [] /\
     (forall k, k <> "a"%string -> local_getConversation env' k = local_getConversation tied_env k)).
Proof.
  destruct local_deleteConversation_effect as [H1 [H2 H3]]. split; [|split].
  - apply H1. vm_compute. reflexivity.
  - apply (H2 tied_env "toString" "toString"); vm_compute; reflexivity.
  - apply (H3 tied_env "a" (tied_conversation "a")); vm_compute; reflexivity.
Defined.

Lemma local_updateConversation_effect_witness :
  local_updateConversation tied_env "z" no_conversation_updates 300 =
    Failed (ConversationNotFound "z") /\
  (exists env',
     local_updateConversation tied_env "toString" no_conversation_updates 300 = Done (env', tt) /\
     getAll env' = getAll tied_env) /\
  (exists env' c',
     local_updateConversation tied_env "a" no_conversation_updates 300 = Done (env', tt) /\
     local_getConversation env' "a" = Some (OwnProperty c') /\
     c' = set_updatedAt (assign_conversation (tied_conversation "a") no_conversation_updates) 300 /\
     Conversation.updatedAt c' = 300 /\
     Conversation.id c' = override (Conversation.id (tied_conversation "a"))
                            (updc_id no_conversation_updates) /\
     (forall k, k <> "a"%string -> local_getConversation env' k = local_getConversation tied_env k)).
Proof.
  destruct local_updateConversation_effect as [H1 [H2 H3]]. split; [|split].
  - apply H1. vm_compute. reflexivity.
  - apply (H2 tied_env "toString" no_conversation_updates 300 "toString");
      vm_compute; reflexivity.
  - apply (H3 tied_env "a" no_conversation_updates 300 (tied_conversation "a"));
      vm_compute; reflexivity.
Defined.

Lemma local_unreadable_item_replaced_witness :
  local_listConversations (mkLocalEnv true true (Some Unparseable)) = [] /\
  exists env' c,
    local_createConversation (mkLocalEnv true true (Some Unparseable)) (Some "T") trip_id 5 5 =
      Done (env', c) /\
    item env' = Some (Json (mkStorageData [(trip_id, c)])).
Proof.
  apply (local_unreadable_item_replaced (mkLocalEnv true true (Some Unparseable))
           (Some "T") trip_id 5 5); [reflexivity|reflexivity|right; reflexivity].
Defined.

Lemma local_write_failure_witness :
  local_createConversation (mkLocalEnv true false (item tied_env)) None trip_id 1 1 =
    Failed LocalWriteFailed /\
  local_saveMessage (mkLocalEnv true false (item tied_env)) "a" kyoto_user_message 1 =
    Failed LocalWriteFailed /\
  local_deleteConversation (mkLocalEnv true false (item tied_env)) "a" = Failed LocalWriteFailed.
Proof.
  destruct (local_write_failure (mkLocalEnv true false (item tied_env)) eq_refl eq_refl)
    as [H1 [H2 [_ H4]]].
  split; [apply H1|split].
  - apply (H2 "a" kyoto_user_message 1 (tied_conversation "a")). vm_compute. reflexivity.
  - apply H4. intros H. vm_compute in H. discriminate H.
Defined.

Lemma saveMessage_duplicate_ids_witness :
  (exists env1 env2,
     local_saveMessage tied_env "a" kyoto_user_message 60 = Done (env1, tt) /\
     local_saveMessage env1 "a" kyoto_user_message 61 = Done (env2, tt) /\
     local_getMessages env2 "a" = [kyoto_user_message; kyoto_user_message]) /\
  (exists db1,
     sb_saveMessage db_one_conversation trip_id kyoto_user_message 60 Applied Applied = Done db1 /\
     sb_saveMessage db1 trip_id kyoto_user_message 61 Applied Applied =
       Failed (BackendFailed "save message")).
Proof.
  destruct saveMessage_duplicate_ids as [H1 H2]. split.
  - apply (H1 tied_env "a" kyoto_user_message 60 61 (tied_conversation "a"));
      vm_compute; reflexivity.
  - destruct (sb_saveMessage db_one_conversation trip_id kyoto_user_message 60 Applied Applied)
      as [db1|e] eqn:E.
    + exists db1. split; [reflexivity|].
      exact (H2 db_one_conversation trip_id kyoto_user_message 60 61
               Applied Applied Applied Applied db1 E).
    + vm_compute in E. discriminate E.
Defined.

Lemma sb_deleteConversation_effect_witness :
  exists db',
    sb_deleteConversation db_one_message trip_id Applied = Done db' /\
    sb_getMessages db' trip_id = [].
Proof.
  destruct sb_deleteConversation_effect as [_ [H2 _]].
  destruct (sb_deleteConversation db_one_message trip_id Applied) as [db'|e] eqn:E.
  - exists db'. split; [reflexivity|].
    apply (H2 db_one_message trip_id db'); [|exact E].
    intros m Hm. vm_compute in Hm. destruct Hm as [<-|[]]. reflexivity.
  - vm_compute in E. discriminate E.
Defined.

Lemma sb_deleteMessage_effect_witness :
  exists db',
    sb_deleteMessage db_one_message unknown_message_id Applied = Done db' /\ db' = db_one_message.
Proof.
  destruct (sb_deleteMessage_effect db_one_message unknown_message_id)
    as [[db' [Hd [_ [_ [_ H]]]]] _].
  exists db'. split; [exact Hd|]. apply H. reflexivity.
Defined.

Lemma sb_updateConversation_effect_witness :
  exists db',
    sb_updateConversation db_one_conversation other_trip_id no_conversation_updates 300 Applied =
      Done db' /\ db' = db_one_conversation.
Proof.
  destruct (sb_updateConversation_effect db_one_conversation other_trip_id
              no_conversation_updates 300)
    as [[db' [Hd [_ [_ [_ [_ [_ [_ H]]]]]]]] _].
  exists db'. split; [exact Hd|]. apply H. reflexivity.
Defined.

Lemma remote_ops_keep_schema_witness :
  exists db',
    sb_saveMessage db_one_message trip_id kyoto_assistant_message 20 Applied Hidden = Done db' /\
    fk_ok db' /\ pk_ok db'.
Proof.
  assert (Hfk : fk_ok db_one_message).
  { intros m Hm. vm_compute in Hm. destruct Hm as [<-|[]]. reflexivity. }
  assert (Hpk : pk_ok db_one_message).
  { split; vm_compute; repeat constructor; vm_compute; intros H; repeat destruct H as [H|H];
      try discriminate H; exact H. }
  destruct (remote_ops_keep_schema db_one_message Hfk Hpk) as [Hs _].
  destruct (sb_saveMessage db_one_message trip_id kyoto_assistant_message 20 Applied Hidden)
    as [db'|e] eqn:E.
  - exists db'. split; [reflexivity|]. exact (Hs _ _ _ _ _ _ E).
  - vm_compute in E. discriminate E.
Defined.


Lemma getUserFriendlyError_generic_witness :
  exists key s,
    assoc_lookup ERROR_MESSAGES key = Some s /\
    getUserFriendlyError (AppErrorValue (new_AppError "socket hang up" None None None)) = Text s.
Proof.
  destruct getUserFriendlyError_generic as [_ [_ H3]].
  apply H3. left. reflexivity.
Defined.

Lemma getUserFriendlyError_inherited_member_witness :
  getUserFriendlyError (AppErrorValue (new_AppError "x" None (Some "toString") None)) =
    Member "toString".
Proof.
  apply (proj2 (getUserFriendlyError_inherited_member _ _)).
  exists (new_AppError "x" None (Some "toString") None).
  split; [reflexivity|]. split; [reflexivity|].
  vm_compute. right. right. right. right. right. left. reflexivity.
Defined.

Lemma isRetryableError_wrapping_witness :
  isRetryableError
    (ThrownError (mkJsError ("Failed to save message: " ++ "fetch failed" ++ "")%string)) = true.
Proof.
  apply (proj1 isRetryableError_wrapping "fetch failed" "Failed to save message: " "").
  vm_compute. reflexivity.
Defined.

Lemma transient_friendly_messages_are_retryable_witness :
  isRetryableError (ThrownError (mkJsError "Request timeout")) = true.
Proof.
  apply (proj1 transient_friendly_messages_are_retryable "Request timeout").
  vm_compute. right. left. reflexivity.
Defined.

Lemma breaker_never_half_open_between_calls_witness :
  state (fst (execute breaker_after_five_failures 60200 (Throw network_thrown) 60300))
    <> HalfOpen /\
  0 <= failures (fst (execute breaker_after_five_failures 60200 (Throw network_thrown) 60300)) /\
  (state (fst (execute breaker_after_five_failures 60200 (Throw network_thrown) 60300)) = Open ->
   failures (fst (execute breaker_after_five_failures 60200 (Throw network_thrown) 60300)) >=
   threshold (fst (execute breaker_after_five_failures 60200 (Throw network_thrown) 60300))).
Proof.
  apply breaker_never_half_open_between_calls.
  apply reach_execute. apply run_calls_reachable. apply reach_new.
Defined.
